(** * rellic: reachability-based refinement and struct field renaming

    A shallow embedding of [lib/AST/ReachBasedRefine.cpp] and
    [lib/AST/StructFieldRenamer.cpp].

    The clang AST is a mutable pointer structure: [clang::Stmt *] values are
    node identities, several of which may refer to one node.  The refiner
    reads the children of a block by pointer, rewires [IfStmt] nodes with
    [setElse] and allocates a new [CompoundStmt]; the embedding therefore
    keeps an explicit store from pointers to nodes.

    The file has the definitions first (the store, the solver interface,
    the refiner, the field renamer, a solver over machine integers and the
    example blocks), then the facts about them. *)

From stdpp Require Import gmap strings list fin_maps.
From Stdlib Require Import ZArith Lia.

Set Warnings "-register-all,-clear-no-such-hyp".

(** ** The AST store *)

(** [clang::Stmt *] *)
Abbreviation ptr := nat (only parsing).

Section AST.
(** [clang::Expr *] of a condition; conditions are never rewritten by the
    passes below, so they are kept by value. *)
Context {Expr : Type}.

Inductive StmtNode :=
| IfStmt (cond : Expr) (then_ : ptr) (else_ : option ptr)
| CompoundStmt (children : list ptr)
| OtherStmt (kind : nat).

(** [IfStmt::getThen] *)
Definition getThen (h : gmap nat StmtNode) (s : ptr) : option ptr :=
  match h !! s with
  | Some (IfStmt _ t _) => Some t
  | _ => None
  end.

(** [IfStmt::getElse]; the inner option is the null pointer. *)
Definition getElse (h : gmap nat StmtNode) (s : ptr) : option (option ptr) :=
  match h !! s with
  | Some (IfStmt _ _ e) => Some e
  | _ => None
  end.

(** [IfStmt::setElse]: an in-place update of the node [s] points to. *)
Definition setElse (h : gmap nat StmtNode) (s : ptr) (e : ptr)
  : option (gmap nat StmtNode) :=
  match h !! s with
  | Some (IfStmt c t _) => Some (<[s := IfStmt c t (Some e)]> h)
  | _ => None
  end.

(** [ASTBuilder::CreateCompoundStmt]: a node at an address not in use. *)
Definition CreateCompoundStmt (h : gmap nat StmtNode) (stmts : list ptr)
  : ptr * gmap nat StmtNode :=
  let new := fresh (dom h) in (new, <[new := CompoundStmt stmts]> h).

(** *** The tree a pointer denotes

    Reading the store from a pointer gives back a statement tree.  The
    store may be cyclic or dangling, so the reading is bounded. *)
Inductive Stmt :=
| SIf (c : Expr) (t : Stmt) (e : option Stmt)
| SCompound (l : list Stmt)
| SOther (kind : nat).

Fixpoint denote (fuel : nat) (h : gmap nat StmtNode) (p : ptr) : option Stmt :=
  match fuel with
  | O => None
  | S fuel =>
      match h !! p with
      | Some (IfStmt c t e) =>
          t' ← denote fuel h t;
          match e with
          | None => Some (SIf c t' None)
          | Some e => e' ← denote fuel h e; Some (SIf c t' (Some e'))
          end
      | Some (CompoundStmt l) => SCompound <$> mapM (denote fuel h) l
      | Some (OtherStmt k) => Some (SOther k)
      | None => None
      end
  end.

(** All node addresses below a pointer, the pointer first, in source order
    (with repetitions when a node is reachable along two paths). *)
Fixpoint nodes (fuel : nat) (h : gmap nat StmtNode) (p : ptr) : list ptr :=
  match fuel with
  | O => []
  | S fuel =>
      match h !! p with
      | Some (IfStmt c t e) =>
          p :: nodes fuel h t ++ from_option (nodes fuel h) [] e
      | Some (CompoundStmt l) => p :: concat (map (nodes fuel h) l)
      | Some (OtherStmt k) => [p]
      | None => []
      end
  end.
End AST.

Arguments StmtNode : clear implicits.
Arguments Stmt : clear implicits.

(** ** The solver interface

    [z3::expr] and the operations the refiner applies to it.  [Z3Cond] is the
    translation used by [GetZ3Cond], that is
    [Z3BoolCast(GetOrCreateZ3Expr(cond)).simplify()], and [Prove] is the
    helper of [rellic/AST/Util.h]; neither is part of the two files embedded
    here, so both are fields of the interface. *)
Class Solver (Expr : Type) := {
  z3_expr : Type;
  z3_not : z3_expr → z3_expr;
  z3_and : z3_expr → z3_expr → z3_expr;
  mk_or : list z3_expr → z3_expr;
  Z3Cond : Expr → z3_expr;
  Prove : z3_expr → bool;
  (** what a formula means *)
  z3_model : Type;
  z3_eval : z3_model → z3_expr → bool;
}.

(** The connectives mean what they say and [Prove] only accepts formulas
    that hold in every model. *)
Class SolverSound {Expr : Type} (S : Solver Expr) : Prop := {
  eval_not : ∀ m e, z3_eval m (z3_not e) = negb (z3_eval m e);
  eval_and : ∀ m a b, z3_eval m (z3_and a b) = z3_eval m a && z3_eval m b;
  eval_mk_or : ∀ m es, z3_eval m (mk_or es) = existsb (z3_eval m) es;
  Prove_sound : ∀ e, Prove e = true → ∀ m, z3_eval m e = true;
}.

(** ** [ReachBasedRefine] *)

Section ReachBasedRefine.
Context {Expr : Type} {Z3 : Solver Expr}.

Local Abbreviation store := (gmap nat (StmtNode Expr)).

(** The members of the pass that [VisitCompoundStmt] touches: the AST it
    walks, the [substitutions] map of [TransformVisitor] and the stop flag
    behind [Stopped()]. *)
Record Pass := {
  ast : store;
  substitutions : gmap nat nat;
  stopped : bool;
}.

(** [ReachBasedRefine::GetZ3Cond] *)
Definition GetZ3Cond (h : store) (ifstmt : ptr) : option z3_expr :=
  match h !! ifstmt with
  | Some (IfStmt cond _ _) => Some (Z3Cond cond)
  | _ => None
  end.

(** The locals of [VisitCompoundStmt] that live across loop iterations,
    together with the store. *)
Record Locals := {
  body : list ptr;
  ifs : list ptr;
  conds : list z3_expr;
  done_something : bool;
  heap : store;
}.

(** The lambda [ResetChain]. *)
Definition ResetChain (s : Locals) : Locals :=
  {| body := body s; ifs := []; conds := [];
     done_something := done_something s; heap := heap s |}.

Definition push_if (stmt : ptr) (s : Locals) : Locals :=
  {| body := body s; ifs := ifs s ++ [stmt]; conds := conds s;
     done_something := done_something s; heap := heap s |}.

Definition push_cond (c : z3_expr) (s : Locals) : Locals :=
  {| body := body s; ifs := ifs s; conds := conds s ++ [c];
     done_something := done_something s; heap := heap s |}.

(** The loop [for (auto stmt : ifs)] that chains the statements into the
    first one.  [front] and [back] are [ifs.front()] and [ifs.back()];
    statements are compared by address. *)
Fixpoint link (front back : ptr) (stmts : list ptr) (last_if : ptr)
    (h : store) : option store :=
  match stmts with
  | [] => Some h
  | stmt :: rest =>
      if decide (stmt = front) then link front back rest last_if h
      else if decide (stmt = back) then
        t ← getThen h stmt;
        h' ← setElse h last_if t;
        link front back rest last_if h'
      else
        h' ← setElse h last_if stmt;
        link front back rest stmt h'
  end.

(** [std::vector::erase(first, last)] and [erase(pos)] on positions given
    as offsets from [begin()]; both return the offset [first] (resp.
    [pos]) in the shortened vector. *)
Definition erase_range {A} (first last : nat) (v : list A) : list A :=
  take first v ++ drop last v.
Definition erase_at {A} (pos : nat) (v : list A) : list A :=
  take pos v ++ drop (S pos) v.

(** Lines 96-133: chain the collected statements, then delete all but the
    first from [body].  The subtraction is on [size_t]; the chain has at
    least three members here and ends at [i], so it does not wrap
    (lemma [fuse_offsets]). *)
Definition fuse (i : nat) (s : Locals) : option Locals :=
  front ← head (ifs s);
  back ← last (ifs s);
  h' ← link front back (ifs s) front (heap s);
  let start_delete := i - (length (ifs s) - 2) in
  let end_delete := i in
  let body1 := erase_range start_delete end_delete (body s) in
  let body2 := erase_at start_delete body1 in
  Some {| body := body2; ifs := ifs s; conds := conds s;
          done_something := true; heap := h' |}.

(** One iteration of the outer loop, at index [i]. *)
Definition loop_body (i : nat) (s : Locals) : option Locals :=
  stmt ← body s !! i;
  node ← heap s !! stmt;
  match node with
  | IfStmt c _ else_ =>
      let s := push_if stmt s in
      let cond := Z3Cond c in
      if else_ is Some _ then Some (ResetChain s) else
      let is_unreachable :=
        Prove (z3_not (z3_and cond (mk_or (conds s)))) in
      if negb is_unreachable then Some (ResetChain s) else
      let s := push_cond cond s in
      let is_complete := Prove (mk_or (conds s)) in
      if (length (ifs s) <=? 2) || negb is_complete then Some s
      else fuse i s
  | _ => Some (ResetChain s)
  end.

(** [for (size_t i{0}; i < body.size() && !done_something; ++i)].  The
    index grows by one per iteration and [body] never grows, so
    [body.size()] iterations, counted from [i = 0], are all there are. *)
Fixpoint for_loop (n : nat) (i : nat) (s : Locals) : option Locals :=
  match n with
  | O => Some s
  | S n =>
      if (i <? length (body s)) && negb (done_something s) then
        s' ← loop_body i s; for_loop n (S i) s'
      else Some s
  end.

Definition scan (h : store) (children : list ptr) : option Locals :=
  for_loop (length children) 0
    {| body := children; ifs := []; conds := [];
       done_something := false; heap := h |}.

(** [ReachBasedRefine::VisitCompoundStmt].  The result is the returned
    flag and the pass afterwards; [None] stands for a dereference of a
    pointer that is not a node of the store. *)
Definition VisitCompoundStmt (compound : ptr) (p : Pass)
  : option (bool * Pass) :=
  match ast p !! compound with
  | Some (CompoundStmt children) =>
      s ← scan (ast p) children;
      let p' :=
        if done_something s then
          let '(new, h) := CreateCompoundStmt (heap s) (body s) in
          {| ast := h;
             substitutions := <[compound := new]> (substitutions p);
             stopped := stopped p |}
        else
          {| ast := heap s; substitutions := substitutions p;
             stopped := stopped p |} in
      Some (negb (stopped p'), p')
  | _ => None
  end.
End ReachBasedRefine.

Arguments Pass : clear implicits.
Arguments Locals _ {_}.

(** ** Vocabulary for the properties of the scan *)

Section ScanVocabulary.
Context {Expr : Type} {Z3 : Solver Expr}.

Local Abbreviation store := (gmap nat (StmtNode Expr)).

(** What the loop knows about [ifs] and [conds] between iterations: every
    member is an [IfStmt] without [else], [conds] are their translated
    conditions, and each condition was proved unreachable from those
    before it. *)
Inductive chain (h : store) : list ptr → list z3_expr → Prop :=
| chain_nil : chain h [] []
| chain_snoc stmts cs stmt c t :
    chain h stmts cs →
    h !! stmt = Some (IfStmt c t None) →
    Prove (z3_not (z3_and (Z3Cond c) (mk_or cs))) = true →
    chain h (stmts ++ [stmt]) (cs ++ [Z3Cond c]).

Definition is_if (h : store) (q : ptr) : Prop :=
  ∃ c t e, h !! q = Some (IfStmt c t e).

(** [h'] differs from [h] at most in the [else] pointers of the [IfStmt]
    nodes in [M], which are set. *)
Definition else_set (M : list ptr) (h h' : store) : Prop :=
  ∀ q, h' !! q = h !! q ∨
       (q ∈ M ∧ ∃ c t e e', h !! q = Some (IfStmt c t e) ∧
                            h' !! q = Some (IfStmt c t (Some e'))).

Definition init (h : store) (children : list ptr) : Locals Expr :=
  {| body := children; ifs := []; conds := [];
     done_something := false; heap := h |}.

(** Between iterations, before anything is fused: the block and the
    store are as they were, and [ifs] is the run of statements that ends
    just before index [i]. *)
Definition scanning (h : store) (children : list ptr) (i : nat)
    (s : Locals Expr) : Prop :=
  body s = children ∧ heap s = h ∧ done_something s = false ∧
  chain h (ifs s) (conds s) ∧
  ∃ pre, take i children = pre ++ ifs s.

(** After a fusion: the block was [pre ++ ch ++ post], the run [ch] of at
    least three statements was chained in the store and all of it but its
    first statement was deleted from [body]. *)
Definition fused (h : store) (children : list ptr) (s : Locals Expr)
    (pre ch post : list ptr) (cs : list z3_expr) : Prop :=
  children = pre ++ ch ++ post ∧
  chain h ch cs ∧ 2 < length ch ∧ Prove (mk_or cs) = true ∧
  done_something s = true ∧
  body s = pre ++ take 1 ch ++ post ∧
  else_set ch h (heap s) ∧
  ∃ front back, head ch = Some front ∧ last ch = Some back ∧
                link front back ch front h = Some (heap s).

(** The [else] pointers of a chained run in the store [h]: every
    statement but the last two points to the next statement, the one
    before the last points to the branch of the last.  Each statement is
    given with its condition and its branch. *)
Fixpoint wired (h : store) (l : list (ptr * Expr * ptr)) : Prop :=
  match l with
  | (a, c, t) :: (((b, _, tb) :: l2) as tl) =>
      match l2 with
      | [] => h !! a = Some (IfStmt c t (Some tb))
      | _ => h !! a = Some (IfStmt c t (Some b)) ∧ wired h tl
      end
  | _ => True
  end.

(** The statement [if(c_1){t_1} else if(c_2){t_2} ... else {t_n}] built
    from the arms [(c_1,t_1) ... (c_n,t_n)]: the last arm contributes its
    branch only. *)
Fixpoint fused_stmt (arms : list (Expr * Stmt Expr)) : option (Stmt Expr) :=
  match arms with
  | [] => None
  | [(_, t)] => Some t
  | (c, t) :: rest => e ← fused_stmt rest; Some (SIf c t (Some e))
  end.

(** The locals with [stmts] appended to [body]. *)
Definition with_tail (stmts : list ptr) (s : Locals Expr) : Locals Expr :=
  {| body := body s ++ stmts; ifs := ifs s; conds := conds s;
     done_something := done_something s; heap := heap s |}.

(** The statement [if(c){t}]. *)
Definition if_stmt (arm : Expr * Stmt Expr) : Stmt Expr :=
  SIf arm.1 arm.2 None.

(** Modelled from the spec: the single traversal of a pass, which visits
    the blocks of the tree, nested ones included ([TransformVisitor] and
    the visitor it derives from are not among the embedded files).  The
    traversal started by [RunImpl] calls [VisitCompoundStmt] on the
    blocks one after the other and stops when a visit returns false;
    [order] is the order in which it reaches them. *)
Fixpoint VisitAll (order : list ptr) (p : Pass Expr) : option (Pass Expr) :=
  match order with
  | [] => Some p
  | compound :: rest =>
      '(continue, p') ← VisitCompoundStmt compound p;
      if continue : bool then VisitAll rest p' else Some p'
  end.
End ScanVocabulary.

(** ** [StructFieldRenamer] *)

(** The kinds of [llvm::DINode] the renamer tells apart. *)
Inductive DINode :=
| DIDerivedType (name : string)
| DICompositeType (elements : list DINode)
| DIBasicType (name : string).

(** Behaviour that C++ leaves undefined. *)
Inductive Fault :=
| BadCast        (* [llvm::cast] to a class the node does not have *)
| OutOfBounds    (* [operator[]] of a vector past its end *)
| Dangling.      (* a declaration that is not in the AST *)

(** How a visit ends: it returns, a [CHECK] fails (glog then logs at
    severity FATAL and aborts the process), or it runs into undefined
    behaviour. *)
Inductive Outcome (A : Type) :=
| Returned (a : A)
| Fatal (msg : string)
| Undefined (f : Fault).

Arguments Returned {A} a.
Arguments Fatal {A} msg.
Arguments Undefined {A} f.

(** The members of the renamer and the part of the AST it writes.  In the
    two maps a key that is absent and a key mapped to a null pointer are
    the same thing: [operator[]] is their only use, which makes the entry
    null when it is absent. *)
Record Renamer := {
  decls : gmap nat nat;             (* [RecordDecl *] to [llvm::Type *] *)
  types : gmap nat DINode;          (* [llvm::Type *] to [llvm::DIType *] *)
  record_fields : gmap nat (list string);
                                    (* the field names of each [RecordDecl] *)
}.

(** [llvm::cast<llvm::DIDerivedType>(field)->getName()] *)
Definition derived_name (field : DINode) : option string :=
  match field with
  | DIDerivedType name => Some name
  | _ => None
  end.

(** The loop over [decl_fields]; [decl_fields] holds the current names of
    the fields, [di_fields] the names of the debug-info elements.  The
    index is an [unsigned] compared with a [size_t]; it does not wrap for
    records of fewer than [2^32] fields. *)
Fixpoint rename_loop (n i : nat) (di_fields : list string)
    (seen_names : gset string) (decl_fields : list string)
  : Outcome (list string) :=
  match n with
  | O => Returned decl_fields
  | S n =>
      if i <? length decl_fields then
        match decl_fields !! i, di_fields !! i with
        | Some old_name, Some name =>
            if decide (name ∈ seen_names) then
              rename_loop n (S i) di_fields seen_names
                (<[i := name +:+ "_" +:+ old_name]> decl_fields)
            else
              rename_loop n (S i) di_fields ({[name]} ∪ seen_names)
                (<[i := name]> decl_fields)
        | _, _ => Undefined OutOfBounds
        end
      else Returned decl_fields
  end.

(** [StructFieldRenamer::VisitRecordDecl] *)
Definition VisitRecordDecl (decl : ptr) (s : Renamer)
  : Outcome (bool * Renamer) :=
  match decls s !! decl with
  | None => Fatal "Type information not present for declaration"
  | Some type =>
      match types s !! type with
      | None => Returned (true, s)
      | Some (DICompositeType elements) =>
          match record_fields s !! decl with
          | None => Undefined Dangling
          | Some decl_fields =>
              match mapM derived_name elements with
              | None => Undefined BadCast
              | Some di_fields =>
                  match rename_loop (length decl_fields) 0 di_fields ∅
                          decl_fields with
                  | Returned names =>
                      Returned
                        (true,
                         {| decls := decls s; types := types s;
                            record_fields :=
                              <[decl := names]> (record_fields s) |})
                  | Fatal msg => Fatal msg
                  | Undefined f => Undefined f
                  end
              end
          end
      | Some _ => Undefined BadCast
      end
  end.

(** Modelled from the spec: a pass that fails fatally aborts the whole
    pipeline (the traversal that calls [VisitRecordDecl] is not among the
    embedded files).  The record declarations are visited one after the
    other; a failed [CHECK] aborts the process, so nothing is visited
    after it. *)
Fixpoint VisitRecordDecls (order : list ptr) (s : Renamer) : Outcome Renamer :=
  match order with
  | [] => Returned s
  | decl :: rest =>
      match VisitRecordDecl decl s with
      | Returned (continue, s') =>
          if continue : bool then VisitRecordDecls rest s' else Returned s'
      | Fatal msg => Fatal msg
      | Undefined f => Undefined f
      end
  end.

(** The name the [i]-th field gets from the [i]-th debug-info element. *)
Definition renamed (di_fields : list string) (i : nat) (name old_name : string)
  : string :=
  if decide (name ∈ take i di_fields) then name +:+ "_" +:+ old_name
  else name.

(** ** A solver for conditions over machine integers

    An instance of the solver interface, used to run the refiner on
    concrete blocks.  The conditions compare integer variables with
    constants.  Variables are [w]-bit machine integers; a comparison is
    signed or unsigned according to the C type of its operands. *)

Inductive Term :=
| TVar (x : nat)
| TLit (n : Z).

Inductive Signedness := Signed | Unsigned.

Inductive Cond :=
| CTrue
| CFalse
| CEq (a b : Term)
| CGe (sg : Signedness) (a b : Term)
| CNot (c : Cond)
| CAnd (c1 c2 : Cond)
| COr (c1 c2 : Cond).

Section BitVector.
Variable w : nat.

Definition modulus : Z := 2 ^ Z.of_nat w.

(** The value of a [w]-bit pattern read as a two's complement number. *)
Definition signed (v : Z) : Z :=
  if (v <? modulus / 2)%Z then v else (v - modulus)%Z.

Definition eval_term (env : nat → Z) (t : Term) : Z :=
  match t with
  | TVar x => env x
  | TLit n => (n mod modulus)%Z
  end.

Fixpoint eval_cond (env : nat → Z) (c : Cond) : bool :=
  match c with
  | CTrue => true
  | CFalse => false
  | CEq a b => (eval_term env a =? eval_term env b)%Z
  | CGe Unsigned a b => (eval_term env b <=? eval_term env a)%Z
  | CGe Signed a b =>
      (signed (eval_term env b) <=? signed (eval_term env a))%Z
  | CNot c => negb (eval_cond env c)
  | CAnd c1 c2 => eval_cond env c1 && eval_cond env c2
  | COr c1 c2 => eval_cond env c1 || eval_cond env c2
  end.

Definition term_vars (t : Term) : nat :=
  match t with TVar x => S x | TLit _ => 0 end.

(** One more than the largest variable of a condition. *)
Fixpoint cond_vars (c : Cond) : nat :=
  match c with
  | CTrue | CFalse => 0
  | CEq a b | CGe _ a b => term_vars a `max` term_vars b
  | CNot c => cond_vars c
  | CAnd c1 c2 | COr c1 c2 => cond_vars c1 `max` cond_vars c2
  end.

Definition values : list Z := Z.of_nat <$> seq 0 (2 ^ w).

Definition assign (env : nat → Z) (x : nat) (v : Z) : nat → Z :=
  λ y, if decide (y = x) then v else env y.

(** All assignments to the variables [0 .. k-1]. *)
Fixpoint assignments (k : nat) : list (nat → Z) :=
  match k with
  | O => [λ _, 0%Z]
  | S k => env ← assignments k; v ← values; [assign env k v]
  end.

(** Modelled from the spec: the proof query, a decision procedure for
    the tautology of a formula ([Prove] of [rellic/AST/Util.h] is not
    among the embedded files).  A formula is proved when it holds under
    every assignment to its variables. *)
Definition bv_Prove (c : Cond) : bool :=
  forallb (λ env, eval_cond env c) (assignments (cond_vars c)).

Definition bv_mk_or (cs : list Cond) : Cond := foldr COr CFalse cs.

(** A model gives every variable an integer, read modulo [2^w]. *)
Definition bv_model : Type := nat → Z.

Definition bv_eval (m : bv_model) (c : Cond) : bool :=
  eval_cond (λ x, (m x mod modulus)%Z) c.

Definition bv_solver : Solver Cond :=
  {| z3_expr := Cond; z3_not := CNot; z3_and := CAnd; mk_or := bv_mk_or;
     Z3Cond := λ c, c; Prove := bv_Prove;
     z3_model := bv_model; z3_eval := bv_eval |}.
End BitVector.

(** ** The blocks of the examples *)

Definition x_eq (n : Z) : Cond := CEq (TVar 0) (TLit n).
Definition x_ge (sg : Signedness) (n : Z) : Cond := CGe sg (TVar 0) (TLit n).

(** [{ if(x==0){A} if(x==1){B} if(x>=2){C} }] at address 0. *)
Definition block3 (sg : Signedness) : gmap nat (StmtNode Cond) :=
  list_to_map
    [ (0, CompoundStmt [1; 2; 3]);
      (1, IfStmt (x_eq 0) 4 None);
      (2, IfStmt (x_eq 1) 5 None);
      (3, IfStmt (x_ge sg 2) 6 None);
      (4, CompoundStmt [7]); (5, CompoundStmt [8]); (6, CompoundStmt [9]);
      (7, OtherStmt 65); (8, OtherStmt 66); (9, OtherStmt 67) ].

Definition pass0 {Expr} (h : gmap nat (StmtNode Expr)) : Pass Expr :=
  {| ast := h; substitutions := ∅; stopped := false |}.

(** [{ if(x==0){A} if(x==0){B} }] at address 0. *)
Definition block2 : gmap nat (StmtNode Cond) :=
  list_to_map
    [ (0, CompoundStmt [1; 2]);
      (1, IfStmt (x_eq 0) 3 None);
      (2, IfStmt (x_eq 0) 4 None);
      (3, CompoundStmt [5]); (4, CompoundStmt [6]);
      (5, OtherStmt 65); (6, OtherStmt 66) ].

(** The pass after the three statements of [block3] were fused: the first
    two [if]s have their [else] set, the block at the fresh address 10
    holds the first [if] only and is recorded as replacement of block 0. *)
Definition block3_fused : Pass Cond :=
  {| ast := <[10 := CompoundStmt [1]]>
              (<[2 := IfStmt (x_eq 1) 5 (Some 6)]>
                 (<[1 := IfStmt (x_eq 0) 4 (Some 2)]> (block3 Unsigned)));
     substitutions := {[0 := 10]};
     stopped := false |}.

(** Two runs that can be fused, one after the other:
    [{ if(x==0){A} if(x==1){B} if(x>=2){C}
       if(x==0){A} if(x==1){B} if(x>=2){C} }] at address 0. *)
Definition block6 : gmap nat (StmtNode Cond) :=
  list_to_map
    [ (0, CompoundStmt [1; 2; 3; 4; 5; 6]);
      (1, IfStmt (x_eq 0) 7 None);
      (2, IfStmt (x_eq 1) 8 None);
      (3, IfStmt (x_ge Unsigned 2) 9 None);
      (4, IfStmt (x_eq 0) 10 None);
      (5, IfStmt (x_eq 1) 11 None);
      (6, IfStmt (x_ge Unsigned 2) 12 None);
      (7, CompoundStmt [13]); (8, CompoundStmt [14]); (9, CompoundStmt [15]);
      (10, CompoundStmt [16]); (11, CompoundStmt [17]);
      (12, CompoundStmt [18]);
      (13, OtherStmt 65); (14, OtherStmt 66); (15, OtherStmt 67);
      (16, OtherStmt 65); (17, OtherStmt 66); (18, OtherStmt 67) ].

(** A run whose first branch is a block with a run of its own:
    [{ if(x==0){ if(x==0){A} if(x==1){B} if(x>=2){C} }
       if(x==1){B} if(x>=2){C} }] at address 0, the inner block at 4. *)
Definition nested : gmap nat (StmtNode Cond) :=
  list_to_map
    [ (0, CompoundStmt [1; 2; 3]);
      (1, IfStmt (x_eq 0) 4 None);
      (2, IfStmt (x_eq 1) 5 None);
      (3, IfStmt (x_ge Unsigned 2) 6 None);
      (4, CompoundStmt [11; 12; 13]);
      (5, CompoundStmt [8]); (6, CompoundStmt [9]);
      (8, OtherStmt 66); (9, OtherStmt 67);
      (11, IfStmt (x_eq 0) 14 None);
      (12, IfStmt (x_eq 1) 15 None);
      (13, IfStmt (x_ge Unsigned 2) 16 None);
      (14, OtherStmt 65); (15, OtherStmt 66); (16, OtherStmt 67) ].

(** The all-zero model and the model in which every variable is [-1]. *)
Definition zeros : nat → Z := λ _, 0%Z.
Definition ones : nat → Z := λ _, (-1)%Z.

(** The statements [{A}], [{B}], [{C}] of the examples. *)
Definition blockA : Stmt Cond := SCompound [SOther 65].
Definition blockB : Stmt Cond := SCompound [SOther 66].
Definition blockC : Stmt Cond := SCompound [SOther 67].

(** [block6] after one visit, after a second visit of the replacement,
    and the locals at the end of the scan of its first three statements. *)
Definition block6_store1 : gmap nat (StmtNode Cond) :=
  <[2 := IfStmt (x_eq 1) 8 (Some 9)]>
    (<[1 := IfStmt (x_eq 0) 7 (Some 2)]> block6).

Definition block6_visited : Pass Cond :=
  {| ast := <[19 := CompoundStmt [1; 4; 5; 6]]> block6_store1;
     substitutions := {[0 := 19]};
     stopped := false |}.

Definition block6_visited_twice : Pass Cond :=
  {| ast := <[20 := CompoundStmt [1; 4]]>
              (<[5 := IfStmt (x_eq 1) 11 (Some 12)]>
                 (<[4 := IfStmt (x_eq 0) 10 (Some 5)]> (ast block6_visited)));
     substitutions := <[19 := 20]> {[0 := 19]};
     stopped := false |}.

Definition block6_prefix_scanned : Locals Cond (Z3 := bv_solver 8) :=
  @Build_Locals Cond (bv_solver 8)
    [1] [1; 2; 3] [x_eq 0; x_eq 1; x_ge Unsigned 2] true block6_store1.

(** [nested] after the visits of its blocks, inner blocks first. *)
Definition nested_visited : Pass Cond :=
  {| ast := <[18 := CompoundStmt [1]]>
              (<[2 := IfStmt (x_eq 1) 5 (Some 6)]>
                 (<[1 := IfStmt (x_eq 0) 4 (Some 2)]>
                    (<[17 := CompoundStmt [11]]>
                       (<[12 := IfStmt (x_eq 1) 15 (Some 16)]>
                          (<[11 := IfStmt (x_eq 0) 14 (Some 12)]> nested)))));
     substitutions := <[0 := 18]> {[4 := 17]};
     stopped := false |}.

(** The statements of [block3] over an unsigned [x], and what they are
    fused into. *)
Definition three_ifs : list (Stmt Cond) :=
  [ SIf (x_eq 0) blockA None; SIf (x_eq 1) blockB None;
    SIf (x_ge Unsigned 2) blockC None ].

Definition ladder3 : Stmt Cond :=
  SIf (x_eq 0) blockA (Some (SIf (x_eq 1) blockB (Some blockC))).

(** A record [struct { f0; f1; f2 }] of IR type 7 with debug info
    [{ x; y; x }], and one with two debug-info elements only. *)
Definition renamer3 (elements : list DINode) : Renamer :=
  {| decls := {[1 := 7]};
     types := {[7 := DICompositeType elements]};
     record_fields := {[1 := ["field0"; "field1"; "field2"]]} |}.

Definition members_xyx : list DINode :=
  [DIDerivedType "x"; DIDerivedType "y"; DIDerivedType "x"].
Definition members_xy : list DINode :=
  [DIDerivedType "x"; DIDerivedType "y"].

(** ** Further vocabulary *)

Section MoreVocabulary.
Context {Expr : Type} {Z3 : Solver Expr}.

Local Abbreviation store := (gmap nat (StmtNode Expr)).

(** The pass with its stop flag set to [b]. *)
Definition with_stopped (b : bool) (p : Pass Expr) : Pass Expr :=
  {| ast := ast p; substitutions := substitutions p; stopped := b |}.

(** What the statements of a chained run read as, one by one: each
    statement but the last is the ladder that starts at it, the last is
    the [if] it was. *)
Fixpoint chained (arms : list (Expr * Stmt Expr))
  : option (list (Stmt Expr)) :=
  match arms with
  | [] => Some []
  | [arm] => Some [if_stmt arm]
  | arm :: rest =>
      ladder ← fused_stmt arms; l ← chained rest; Some (ladder :: l)
  end.

(** The [else] pointer of the [k]-th statement of a chained run: the
    next statement, or the branch of the next statement when that is
    the last one; the last statement has none. *)
Definition else_after (l : list (ptr * Expr * ptr)) (k : nat) : option ptr :=
  match l !! S k with
  | None => None
  | Some (q, _, t) => if decide (S (S k) = length l) then Some t else Some q
  end.

(** A statement at which a run cannot continue: anything but an [if],
    and an [if] with an [else]. *)
Definition separator (h : store) (q : ptr) : Prop :=
  match h !! q with
  | Some (IfStmt _ _ None) => False
  | Some _ => True
  | None => False
  end.

(** The locals with [stmts] put in front of [body]. *)
Definition with_front (stmts : list ptr) (s : Locals Expr) : Locals Expr :=
  {| body := stmts ++ body s; ifs := ifs s; conds := conds s;
     done_something := done_something s; heap := heap s |}.
End MoreVocabulary.

(** ** Further examples *)

(** The locals after the scan of the first two statements of [block6]:
    both are collected, nothing is fused. *)
Definition block6_two_scanned : Locals Cond (Z3 := bv_solver 8) :=
  @Build_Locals Cond (bv_solver 8)
    [1; 2] [1; 2] [x_eq 0; x_eq 1] false block6.

(** Debug info [{ x; y; z }] and [{ x_field2; x; x }]. *)
Definition members_xyz : list DINode :=
  [DIDerivedType "x"; DIDerivedType "y"; DIDerivedType "z"].
Definition members_clash : list DINode :=
  [DIDerivedType "x_field2"; DIDerivedType "x"; DIDerivedType "x"].

(** [renamer3 members_xyx] after the visit of its record. *)
Definition renamer3_visited : Renamer :=
  {| decls := {[1 := 7]};
     types := {[7 := DICompositeType members_xyx]};
     record_fields := {[1 := ["x"; "y"; "x_field2"]]} |}.

From stdpp Require Import pretty.

(** ** The type printer of the cross-reference tool

    [tools/xref/TypePrinter.cpp] prints clang types as HTML.  Embedded
    here are the functions that print the qualifiers of a type and that
    decide on which side of the type they go.  A function that writes to
    the stream [OS] takes the text written so far and returns the text
    afterwards.  An [unsigned] holding qualifier bits is an integer, and
    the tests on it are bit tests. *)

(** The conversion of an integer to [bool] in a condition. *)
Definition nonzero (x : Z) : bool := negb (x =? 0)%Z.

(** A double quote, as the HTML attributes need it. *)
Definition dquote : string := String (Ascii.ascii_of_nat 34) EmptyString.

(** The text [<span class="clang keyword">kw</span>]. *)
Definition keyword (kw : string) : string :=
  "<span class=" +:+ dquote +:+ "clang keyword" +:+ dquote +:+ ">"
  +:+ kw +:+ "</span>".

(** [clang::LangAS], as [getAddrSpaceAsString] tells its values apart:
    the enumerators it lists, and any other value, given by what clang's
    [isTargetAddressSpace] and [toTargetAddressSpace] return for it. *)
Inductive LangAS :=
| Default
| opencl_global
| opencl_local
| opencl_private
| opencl_constant
| opencl_generic
| opencl_global_device
| opencl_global_host
| cuda_device
| cuda_constant
| cuda_shared
| ptr32_sptr
| ptr32_uptr
| ptr64
| hlsl_groupshared
| other_address_space (is_target : bool) (number : N).

(** [clang::isTargetAddressSpace]: none of the listed enumerators is a
    target address space. *)
Definition isTargetAddressSpace (AS : LangAS) : bool :=
  match AS with
  | other_address_space is_target _ => is_target
  | _ => false
  end.

Definition toTargetAddressSpace (AS : LangAS) : N :=
  match AS with
  | other_address_space _ number => number
  | _ => 0%N
  end.

(** [getAddrSpaceAsString]; [std::to_string] prints in decimal. *)
Definition getAddrSpaceAsString (AS : LangAS) : string :=
  match AS with
  | Default => ""
  | opencl_global => "__global"
  | opencl_local => "__local"
  | opencl_private => "__private"
  | opencl_constant => "__constant"
  | opencl_generic => "__generic"
  | opencl_global_device => "__global_device"
  | opencl_global_host => "__global_host"
  | cuda_device => "__device__"
  | cuda_constant => "__constant__"
  | cuda_shared => "__shared__"
  | ptr32_sptr => "__sptr __ptr32"
  | ptr32_uptr => "__uptr __ptr32"
  | ptr64 => "__ptr64"
  | hlsl_groupshared => "groupshared"
  | other_address_space _ _ => pretty (toTargetAddressSpace AS)
  end.

(** What the printer uses of [clang::Qualifiers]: the bits of the
    qualifiers [const], [restrict] and [volatile], the two Objective-C
    enumerations, and the getters of a qualifier set. *)
Module Qualifiers.

Definition Const : Z := 1.
Definition Restrict : Z := 2.
Definition Volatile : Z := 4.
Definition CVRMask : Z := 7.

Inductive GC := GCNone | Weak | Strong.

Inductive ObjCLifetime :=
| OCL_None
| OCL_ExplicitNone
| OCL_Strong
| OCL_Weak
| OCL_Autoreleasing.

Record t := {
  getCVRQualifiers : Z;
  hasUnaligned : bool;
  getAddressSpace : LangAS;
  getObjCGCAttr : GC;
  getObjCLifetime : ObjCLifetime;
}.

End Qualifiers.

(** The fields of [clang::PrintingPolicy] that the embedded functions
    read. *)
Record PrintingPolicy := {
  Restrict : bool;
  SuppressStrongLifetime : bool;
}.

(** [AppendTypeQualList] *)
Definition AppendTypeQualList (OS : string) (TypeQuals : Z)
    (HasRestrictKeyword : bool) : string :=
  let appendSpace := false in
  let '(OS, appendSpace) :=
    if nonzero (Z.land TypeQuals Qualifiers.Const) then
      (OS +:+ keyword "const", true)
    else (OS, appendSpace) in
  let '(OS, appendSpace) :=
    if nonzero (Z.land TypeQuals Qualifiers.Volatile) then
      let OS := if appendSpace : bool then OS +:+ " " else OS in
      (OS +:+ keyword "volatile", true)
    else (OS, appendSpace) in
  if nonzero (Z.land TypeQuals Qualifiers.Restrict) then
    let OS := if appendSpace : bool then OS +:+ " " else OS in
    if HasRestrictKeyword then OS +:+ keyword "restrict"
    else OS +:+ keyword "__restrict"
  else OS.

(** [PrintQualifiers] *)
Definition PrintQualifiers (Q : Qualifiers.t) (OS : string)
    (Policy : PrintingPolicy) (appendSpaceIfNonEmpty : bool) : string :=
  let addSpace := false in
  let quals := Qualifiers.getCVRQualifiers Q in
  let '(OS, addSpace) :=
    if nonzero quals then
      (AppendTypeQualList OS quals (Restrict Policy), true)
    else (OS, addSpace) in
  let '(OS, addSpace) :=
    if Qualifiers.hasUnaligned Q then
      let OS := if addSpace : bool then OS +:+ " " else OS in
      (OS +:+ "__unaligned", true)
    else (OS, addSpace) in
  let ASStr := getAddrSpaceAsString (Qualifiers.getAddressSpace Q) in
  let '(OS, addSpace) :=
    if negb (bool_decide (ASStr = "")) then
      let OS := if addSpace : bool then OS +:+ " " else OS in
      let addSpace := true in
      if isTargetAddressSpace (Qualifiers.getAddressSpace Q) then
        (((OS +:+ "__attribute__((address_space(") +:+ ASStr) +:+ ")))",
         addSpace)
      else (OS +:+ ASStr, addSpace)
    else (OS, addSpace) in
  let gc := Qualifiers.getObjCGCAttr Q in
  let '(OS, addSpace) :=
    match gc with
    | Qualifiers.GCNone => (OS, addSpace)
    | _ =>
        let OS := if addSpace : bool then OS +:+ " " else OS in
        let addSpace := true in
        match gc with
        | Qualifiers.Weak => (OS +:+ "__weak", addSpace)
        | _ => (OS +:+ "__strong", addSpace)
        end
    end in
  let lifetime := Qualifiers.getObjCLifetime Q in
  let '(OS, addSpace) :=
    match lifetime with
    | Qualifiers.OCL_None => (OS, addSpace)
    | _ =>
        let '(OS, addSpace) :=
          if negb ((if lifetime is Qualifiers.OCL_Strong then true
                    else false)
                   && SuppressStrongLifetime Policy) then
            (if addSpace : bool then OS +:+ " " else OS, true)
          else (OS, addSpace) in
        match lifetime with
        | Qualifiers.OCL_None => (OS, addSpace)  (* [llvm_unreachable] *)
        | Qualifiers.OCL_ExplicitNone =>
            (OS +:+ "__unsafe_unretained", addSpace)
        | Qualifiers.OCL_Strong =>
            (if negb (SuppressStrongLifetime Policy) then OS +:+ "__strong"
             else OS, addSpace)
        | Qualifiers.OCL_Weak => (OS +:+ "__weak", addSpace)
        | Qualifiers.OCL_Autoreleasing => (OS +:+ "__autoreleasing", addSpace)
        end
    end in
  if appendSpaceIfNonEmpty && addSpace then OS +:+ " " else OS.

(** The keywords that [AppendTypeQualList] writes for the bits
    [TypeQuals], in the order it writes them. *)
Definition cvr_words (TypeQuals : Z) (HasRestrictKeyword : bool)
  : list string :=
  (if nonzero (Z.land TypeQuals Qualifiers.Const)
   then [keyword "const"] else [])
  ++ (if nonzero (Z.land TypeQuals Qualifiers.Volatile)
      then [keyword "volatile"] else [])
  ++ (if nonzero (Z.land TypeQuals Qualifiers.Restrict)
      then [keyword (if HasRestrictKeyword then "restrict"
                     else "__restrict")]
      else []).

(** The words that [PrintQualifiers] writes for a qualifier set, in the
    order it writes them. *)
Definition qualifier_words (Q : Qualifiers.t) (Policy : PrintingPolicy)
  : list string :=
  cvr_words (Qualifiers.getCVRQualifiers Q) (Restrict Policy)
  ++ (if Qualifiers.hasUnaligned Q then ["__unaligned"] else [])
  ++ (let AS := Qualifiers.getAddressSpace Q in
      if bool_decide (getAddrSpaceAsString AS = "") then []
      else if isTargetAddressSpace AS then
        ["__attribute__((address_space(" +:+ getAddrSpaceAsString AS
         +:+ ")))"]
      else [getAddrSpaceAsString AS])
  ++ match Qualifiers.getObjCGCAttr Q with
     | Qualifiers.GCNone => []
     | Qualifiers.Weak => ["__weak"]
     | Qualifiers.Strong => ["__strong"]
     end
  ++ match Qualifiers.getObjCLifetime Q with
     | Qualifiers.OCL_None => []
     | Qualifiers.OCL_ExplicitNone => ["__unsafe_unretained"]
     | Qualifiers.OCL_Strong =>
         if SuppressStrongLifetime Policy then [] else ["__strong"]
     | Qualifiers.OCL_Weak => ["__weak"]
     | Qualifiers.OCL_Autoreleasing => ["__autoreleasing"]
     end.

(** The classes of [clang::Type] that [canPrefixQualifiers] gives the
    same answer for whatever else the type holds. *)
Inductive TypeClass :=
| Type_Builtin
| Type_Complex
| Type_UnresolvedUsing
| Type_Using
| Type_Typedef
| Type_TypeOfExpr
| Type_TypeOf
| Type_Decltype
| Type_UnaryTransform
| Type_Record
| Type_Enum
| Type_Elaborated
| Type_TemplateTypeParm
| Type_SubstTemplateTypeParmPack
| Type_DeducedTemplateSpecialization
| Type_TemplateSpecialization
| Type_InjectedClassName
| Type_DependentName
| Type_DependentTemplateSpecialization
| Type_ObjCObject
| Type_ObjCTypeParam
| Type_ObjCInterface
| Type_Atomic
| Type_Pipe
| Type_BitInt
| Type_DependentBitInt
| Type_BTFTagAttributed
| Type_Adjusted
| Type_Decayed
| Type_Pointer
| Type_BlockPointer
| Type_LValueReference
| Type_RValueReference
| Type_MemberPointer
| Type_DependentAddressSpace
| Type_DependentVector
| Type_DependentSizedExtVector
| Type_Vector
| Type_ExtVector
| Type_ConstantMatrix
| Type_DependentSizedMatrix
| Type_FunctionProto
| Type_FunctionNoProto
| Type_Paren
| Type_PackExpansion
| Type_MacroQualified.

Inductive ArrayClass :=
| Type_ConstantArray
| Type_IncompleteArray
| Type_VariableArray
| Type_DependentSizedArray.

(** A [clang::Type] with what [canPrefixQualifiers] reads of it.  The
    constructor gives the class of the type: the classes with a field the
    function reads have a constructor of their own.  [desugar] of an
    [AutoType] is the deduced type, or the type itself when there is
    none.  The four predicates of an Objective-C object pointer look
    through sugar, so they are the same for a type and for the pointer
    type it desugars to. *)
Inductive TypeNode :=
| AutoType (deduced : option TypeNode)
| SubstTemplateTypeParmType (getReplacementType : TypeNode)
| ArrayType (TC : ArrayClass) (getElementType : TypeNode)
| ObjCObjectPointerType
    (isObjCIdType isObjCClassType isObjCQualifiedIdType
     isObjCQualifiedClassType : bool)
| AttributedType (getAttrKind_is_AddressSpace : bool)
| OtherType (TC : TypeClass).

(** [TypePrinter::canPrefixQualifiers]; the result is the returned flag
    and the value left in the reference [NeedARCStrongQualifier]. *)
Fixpoint canPrefixQualifiers (T : TypeNode) (NeedARCStrongQualifier : bool)
  : bool * bool :=
  let CanPrefixQualifiers := false in
  let NeedARCStrongQualifier := false in
  let UnderlyingType :=
    match T with
    | AutoType (Some deduced) => deduced
    | SubstTemplateTypeParmType replacement => replacement
    | _ => T
    end in
  match UnderlyingType with
  | AutoType _
  | OtherType
      (Type_Builtin | Type_Complex | Type_UnresolvedUsing | Type_Using
      | Type_Typedef | Type_TypeOfExpr | Type_TypeOf | Type_Decltype
      | Type_UnaryTransform | Type_Record | Type_Enum | Type_Elaborated
      | Type_TemplateTypeParm | Type_SubstTemplateTypeParmPack
      | Type_DeducedTemplateSpecialization | Type_TemplateSpecialization
      | Type_InjectedClassName | Type_DependentName
      | Type_DependentTemplateSpecialization | Type_ObjCObject
      | Type_ObjCTypeParam | Type_ObjCInterface | Type_Atomic | Type_Pipe
      | Type_BitInt | Type_DependentBitInt | Type_BTFTagAttributed) =>
      (true, NeedARCStrongQualifier)
  | ObjCObjectPointerType isObjCIdType isObjCClassType
      isObjCQualifiedIdType isObjCQualifiedClassType =>
      (isObjCIdType || isObjCClassType || isObjCQualifiedIdType
       || isObjCQualifiedClassType, NeedARCStrongQualifier)
  | ArrayType (Type_VariableArray | Type_DependentSizedArray) element =>
      let NeedARCStrongQualifier := true in
      canPrefixQualifiers element NeedARCStrongQualifier
  | ArrayType (Type_ConstantArray | Type_IncompleteArray) element =>
      canPrefixQualifiers element NeedARCStrongQualifier
  | SubstTemplateTypeParmType _
  | OtherType
      (Type_Adjusted | Type_Decayed | Type_Pointer | Type_BlockPointer
      | Type_LValueReference | Type_RValueReference | Type_MemberPointer
      | Type_DependentAddressSpace | Type_DependentVector
      | Type_DependentSizedExtVector | Type_Vector | Type_ExtVector
      | Type_ConstantMatrix | Type_DependentSizedMatrix
      | Type_FunctionProto | Type_FunctionNoProto | Type_Paren
      | Type_PackExpansion | Type_MacroQualified) =>
      (false, NeedARCStrongQualifier)
  | AttributedType is_AddressSpace =>
      (is_AddressSpace, NeedARCStrongQualifier)
  end.

(** The qualifiers [const volatile __unaligned __global], and a policy. *)
Definition qualifiers_cvug : Qualifiers.t :=
  {| Qualifiers.getCVRQualifiers := 5;
     Qualifiers.hasUnaligned := true;
     Qualifiers.getAddressSpace := opencl_global;
     Qualifiers.getObjCGCAttr := Qualifiers.GCNone;
     Qualifiers.getObjCLifetime := Qualifiers.OCL_None |}.

Definition policy_c : PrintingPolicy :=
  {| Restrict := true; SuppressStrongLifetime := false |}.

(** ** Facts about the scan of a block *)

Section ScanFacts.
Context {Expr : Type} {Z3 : Solver Expr}.

Local Abbreviation store := (gmap nat (StmtNode Expr)).

Lemma chain_length h stmts cs :
  chain h stmts cs → length stmts = length cs.
Proof. induction 1; rewrite ?length_app; simpl; lia. Qed.

Lemma chain_if h stmts cs stmt :
  chain h stmts cs → stmt ∈ stmts →
  ∃ c t, h !! stmt = Some (IfStmt c t None).
Proof.
  induction 1 as [|stmts cs q c t _ IH Hq _]; [by intros ?%elem_of_nil|].
  rewrite elem_of_app, list_elem_of_singleton.
  intros [?| ->]; eauto.
Qed.

Lemma chain_conds h stmts cs :
  chain h stmts cs →
  Forall2 (λ stmt c, GetZ3Cond h stmt = Some c ∧
                     getElse h stmt = Some None) stmts cs.
Proof.
  induction 1 as [|stmts cs q c t _ IH Hq _]; [constructor|].
  apply Forall2_app; [done|]. repeat constructor.
  - unfold GetZ3Cond. by rewrite Hq.
  - unfold getElse. by rewrite Hq.
Qed.

(** The running disjunction excludes each member from those before it. *)
Lemma chain_exclusive h stmts cs j c :
  chain h stmts cs → cs !! j = Some c →
  Prove (z3_not (z3_and c (mk_or (take j cs)))) = true.
Proof.
  intros Hch. revert j. induction Hch as [|stmts cs q c' t Hch IH Hq Hp];
    intros j Hj; [by rewrite lookup_nil in Hj|].
  destruct (decide (j < length cs)) as [Hlt|Hge].
  - rewrite lookup_app_l in Hj by done.
    rewrite take_app_le by lia. by apply IH.
  - rewrite lookup_app_r in Hj by lia.
    apply list_lookup_singleton_Some in Hj as [Hj <-].
    assert (j = length cs) as -> by lia.
    by rewrite take_app_length.
Qed.

(** *** The deletion *)

Lemma erase_spec {A} (pre : list A) (first : A) (mid post : list A)
    start i :
  length mid ≠ 0 →
  i = length pre + length mid →
  start = S (length pre) →
  erase_at start (erase_range start i (pre ++ first :: mid ++ post))
  = pre ++ first :: post.
Proof.
  intros Hmid -> ->.
  unfold erase_at, erase_range.
  assert (∃ m' z, mid = m' ++ [z]) as (m'&z&->).
  { destruct (decide (mid = [])) as [->|Hne]; [done|].
    apply exists_last in Hne as (m'&a&->). eauto. }
  rewrite length_app. simpl.
  assert (pre ++ first :: (m' ++ [z]) ++ post
          = (pre ++ [first]) ++ m' ++ z :: post) as ->.
  { by rewrite <-!app_assoc. }
  assert (S (length pre) = length (pre ++ [first])) as Hl
    by (rewrite length_app; simpl; lia).
  rewrite (take_app_length' (pre ++ [first])) by done.
  replace (length pre + (length m' + 1))
    with (length (pre ++ [first]) + length m') by lia.
  rewrite drop_app_add, drop_app_length.
  rewrite (take_app_length' (pre ++ [first])) by done.
  replace (S (S (length pre))) with (S (length pre) + 1) by lia.
  rewrite (drop_app_add' (pre ++ [first])) by done.
  by rewrite <-app_assoc.
Qed.

(** *** The chaining loop *)

Lemma else_set_refl M (h : store) : else_set M h h.
Proof. intros q. by left. Qed.

Lemma else_set_trans M (h1 h2 h3 : store) :
  else_set M h1 h2 → else_set M h2 h3 → else_set M h1 h3.
Proof.
  intros H12 H23 q.
  destruct (H12 q) as [E12|(?&c&t&e&e'&E1&E2)],
           (H23 q) as [E23|(?&c'&t'&e2&e2'&E3&E4)].
  - left. congruence.
  - right. split; [done|]. exists c', t', e2, e2'. split; congruence.
  - right. split; [done|]. exists c, t, e, e'. split; congruence.
  - right. split; [done|]. exists c, t, e, e2'. split; [done|]. congruence.
Qed.

Lemma else_set_mono M M' (h h' : store) :
  M ⊆ M' → else_set M h h' → else_set M' h h'.
Proof. intros HM H q. destruct (H q) as [?|[??]]; [by left|right; auto]. Qed.

Lemma else_set_is_if M (h h' : store) q : else_set M h h' → is_if h q → is_if h' q.
Proof.
  intros H (c&t&e&Hq). destruct (H q) as [E|(?&c'&t'&?&e'&?&E)].
  - exists c, t, e. congruence.
  - by exists c', t', (Some e').
Qed.

Lemma else_set_dom M (h h' : store) : else_set M h h' → dom h' = dom h.
Proof.
  intros H. apply set_eq. intros q. rewrite !elem_of_dom.
  destruct (H q) as [->|(?&c&t&e&e'&->&->)]; [done|].
  split; eauto.
Qed.

Lemma setElse_else_set (h : store) q e :
  is_if h q → ∃ h', setElse h q e = Some h' ∧ else_set [q] h h'.
Proof.
  intros (c&t&e0&Hq). unfold setElse. rewrite Hq. eexists; split; [done|].
  intros q'. destruct (decide (q' = q)) as [->|Hne].
  - right. split; [set_solver|]. exists c, t, e0, e.
    by rewrite lookup_insert_eq.
  - left. by rewrite lookup_insert_ne.
Qed.

(** The chaining loop never dereferences anything but the [IfStmt]s it was
    given, and all it does is set [else] pointers of those. *)
Lemma link_else_set front back stmts last_if (h : store) :
  (∀ q, q ∈ last_if :: stmts → is_if h q) →
  ∃ h', link front back stmts last_if h = Some h' ∧
        else_set (last_if :: stmts) h h'.
Proof.
  revert last_if h. induction stmts as [|stmt rest IH]; intros last_if h Hif.
  { exists h. split; [done|]. apply else_set_refl. }
  simpl. destruct (decide (stmt = front)) as [->|Hfront].
  { destruct (IH last_if h) as (h'&->&Hh').
    - intros q Hq. apply Hif. set_solver.
    - exists h'. split; [done|].
      eapply else_set_mono; [|done]. set_solver. }
  destruct (decide (stmt = back)) as [->|Hback].
  - destruct (Hif back) as (c&t&e&Hb); [set_solver|].
    unfold getThen. rewrite Hb. simpl.
    destruct (setElse_else_set h last_if t) as (h1&->&H1);
      [apply Hif; set_solver|]. simpl.
    destruct (IH last_if h1) as (h'&->&Hh').
    + intros q Hq. eapply else_set_is_if; [done|]. apply Hif. set_solver.
    + exists h'. split; [done|].
      eapply else_set_trans; eapply else_set_mono; [|done| |done]; set_solver.
  - destruct (setElse_else_set h last_if stmt) as (h1&->&H1);
      [apply Hif; set_solver|]. simpl.
    destruct (IH stmt h1) as (h'&->&Hh').
    + intros q Hq. eapply else_set_is_if; [done|]. apply Hif. set_solver.
    + exists h'. split; [done|].
      eapply else_set_trans; eapply else_set_mono; [|done| |done]; set_solver.
Qed.

(** *** The outer loop *)

Lemma fuse_spec h children i s pre s' :
  body s = children → heap s = h →
  chain h (ifs s) (conds s) →
  take (S i) children = pre ++ ifs s → i < length children →
  2 < length (ifs s) → Prove (mk_or (conds s)) = true →
  fuse i s = Some s' →
  fused h children s' pre (ifs s) (drop (S i) children) (conds s).
Proof.
  intros Hb Hh Hch Htake Hi Hlen Hcomplete Hfuse.
  assert (children = pre ++ ifs s ++ drop (S i) children) as Hsplit.
  { rewrite <-(take_drop (S i) children) at 1.
    by rewrite Htake, <-app_assoc. }
  assert (S i = length pre + length (ifs s)) as Hidx.
  { rewrite <-length_app, <-Htake, length_take. lia. }
  unfold fuse in Hfuse.
  destruct (ifs s) as [|front mid] eqn:Hifs; [simpl in *; lia|].
  cbn -[link last] in Hfuse.
  destruct (last (front :: mid)) as [back|] eqn:Hlast;
    [|by apply last_None in Hlast].
  cbn -[link] in Hfuse.
  destruct (link_else_set front back (front :: mid) front h)
    as (h'&Hlink&Hset).
  { intros q Hq. destruct (chain_if _ _ _ q Hch) as (c&t&?).
    - set_solver.
    - by exists c, t, None. }
  rewrite Hh, Hlink in Hfuse. cbn -[link] in Hfuse.
  injection Hfuse as <-. unfold fused; cbn -[link].
  split_and!; try done.
  - rewrite Hb, Hsplit at 1. rewrite take_0.
    apply erase_spec; simpl in *; lia.
  - eapply else_set_mono; [|done]. set_solver.
  - by exists front, back.
Qed.

(** One iteration either extends or resets the run, or fuses. *)
Lemma loop_body_spec h children i s s' :
  scanning h children i s → i < length children →
  loop_body i s = Some s' →
  scanning h children (S i) s' ∨
  ∃ pre ch post cs, fused h children s' pre ch post cs.
Proof.
  intros (Hb&Hh&Hd&Hch&pre&Hpre) Hi Hstep.
  unfold loop_body in Hstep.
  destruct (lookup_lt_is_Some_2 children i Hi) as [stmt Hstmt].
  assert (take (S i) children = (pre ++ ifs s) ++ [stmt]) as Htake
    by (by erewrite take_S_r, Hpre).
  rewrite Hb, Hstmt, Hh in Hstep. simpl in Hstep.
  destruct (h !! stmt) as [node|] eqn:Hnode; [|done]. simpl in Hstep.
  assert (scanning h children (S i) (ResetChain s)) as Hreset.
  { unfold scanning; simpl. split_and!; try done; [constructor|].
    exists (take (S i) children). by rewrite app_nil_r. }
  assert (scanning h children (S i) (ResetChain (push_if stmt s)))
    as Hreset' by done.
  destruct node as [c t [e|]|l|k];
    try (injection Hstep as <-; by left).
  destruct (Prove (z3_not (z3_and (Z3Cond c) (mk_or (conds s)))))
    eqn:Hexcl; simpl in Hstep; [|injection Hstep as <-; by left].
  assert (chain h (ifs s ++ [stmt]) (conds s ++ [Z3Cond c])) as Hch'
    by (by econstructor).
  destruct (length (ifs s ++ [stmt]) <=? 2) eqn:Hlen; simpl in Hstep.
  { injection Hstep as <-. left. unfold scanning; simpl.
    split_and!; try done. exists pre. by rewrite Htake, app_assoc. }
  destruct (Prove (mk_or (conds s ++ [Z3Cond c]))) eqn:Hcomplete;
    simpl in Hstep.
  2:{ injection Hstep as <-. left. unfold scanning; simpl.
      split_and!; try done. exists pre. by rewrite Htake, app_assoc. }
  right. apply Nat.leb_gt in Hlen.
  exists pre, (ifs s ++ [stmt]), (drop (S i) children),
    (conds s ++ [Z3Cond c]).
  eapply (fuse_spec h children i (push_cond _ (push_if stmt s)));
    simpl; try done.
  by rewrite Htake, app_assoc.
Qed.

Lemma for_loop_spec h children n i s s' :
  scanning h children i s → i + n = length children →
  for_loop n i s = Some s' →
  scanning h children (length children) s' ∨
  ∃ pre ch post cs, fused h children s' pre ch post cs.
Proof.
  revert i s. induction n as [|n IH]; intros i s Hs Hn Hloop.
  { simpl in Hloop. injection Hloop as <-. left.
    by replace (length children) with i by lia. }
  simpl in Hloop.
  destruct Hs as (Hb&Hh&Hd&Hrest).
  rewrite Hb, Hd in Hloop.
  destruct (Nat.ltb_spec i (length children)); [|lia]. simpl in Hloop.
  destruct (loop_body i s) as [s1|] eqn:Hstep; [|done]. simpl in Hloop.
  destruct (loop_body_spec h children i s s1) as [Hs1|Hfused]; try done.
  - eapply (IH (S i)); [done|lia|done].
  - right. destruct Hfused as (pre&ch&post&cs&Hf).
    assert (done_something s1 = true) as Hdone by apply Hf.
    destruct n; simpl in Hloop;
      [|rewrite Hdone, andb_false_r in Hloop];
      injection Hloop as <-; eauto.
Qed.

Lemma scan_spec h children s :
  scan h children = Some s →
  (done_something s = false ∧ body s = children ∧ heap s = h) ∨
  ∃ pre ch post cs, fused h children s pre ch post cs.
Proof.
  intros Hscan.
  destruct (for_loop_spec h children (length children) 0
              (init h children) s) as [Hs|Hf]; try done.
  - unfold scanning, init; simpl. split_and!; try done; [constructor|].
    by exists [].
  - left. destruct Hs as (?&?&?&_). done.
  - by right.
Qed.

(** The offsets of the deletion: when the loop fuses at index [i], the
    run of [ifs] ends at [i], so [ifs.size() - 2] is at most [i] and the
    subtraction on [size_t] does not wrap; the first deleted position is
    the one after the first statement of the run. *)
Lemma fuse_offsets (children pre : list ptr) i (s : Locals Expr) :
  take (S i) children = pre ++ ifs s → i < length children →
  2 < length (ifs s) →
  length (ifs s) - 2 ≤ i ∧ i - (length (ifs s) - 2) = S (length pre).
Proof.
  intros Htake Hi Hlen.
  assert (S i = length pre + length (ifs s)) as Hidx.
  { rewrite <-length_app, <-Htake, length_take. lia. }
  lia.
Qed.

(** *** The scan returns

    The only way for the scan to go wrong is a statement of the block
    that is not a node of the store. *)
Lemma loop_body_total h children i s :
  scanning h children i s → i < length children →
  (∀ q, q ∈ children → is_Some (h !! q)) →
  is_Some (loop_body i s).
Proof.
  intros (Hb&Hh&Hd&Hch&pre&Hpre) Hi Halloc. unfold loop_body.
  destruct (lookup_lt_is_Some_2 children i Hi) as [stmt Hstmt].
  rewrite Hb, Hstmt, Hh. cbn [mbind option_bind].
  destruct (Halloc stmt) as [node Hnode];
    [by eapply list_elem_of_lookup_2|].
  rewrite Hnode. cbn [mbind option_bind].
  destruct node as [c t [e|]|l|k]; try done.
  destruct (Prove _); cbn [negb]; [|done].
  destruct (_ || _); [done|].
  unfold fuse. cbn [push_cond push_if ifs heap].
  destruct (ifs s ++ [stmt]) as [|front mid] eqn:Hifs;
    [by destruct (ifs s)|].
  destruct (last (front :: mid)) as [back|] eqn:Hlast;
    [|by apply last_None in Hlast].
  cbn -[link].
  destruct (link_else_set front back (front :: mid) front h)
    as (h'&Hlink&_).
  { intros q Hq. assert (q ∈ ifs s ++ [stmt]) as Hq'.
    { rewrite Hifs. set_solver. }
    apply elem_of_app in Hq' as [Hq'|Hq'].
    - destruct (chain_if _ _ _ q Hch Hq') as (c'&t'&?).
      by exists c', t', None.
    - apply list_elem_of_singleton in Hq' as ->. by exists c, t, None. }
  rewrite Hh, Hlink. done.
Qed.

Lemma for_loop_total h children n i s :
  scanning h children i s → i + n = length children →
  (∀ q, q ∈ children → is_Some (h !! q)) →
  is_Some (for_loop n i s).
Proof.
  revert i s. induction n as [|n IH]; intros i s Hs Hn Halloc; [done|].
  cbn [for_loop].
  destruct ((i <? length (body s)) && negb (done_something s)) eqn:Hcond;
    [|done].
  assert (i < length children) as Hi by lia.
  destruct (loop_body_total h children i s Hs Hi Halloc) as [s1 Hstep].
  rewrite Hstep. cbn [mbind option_bind].
  destruct (loop_body_spec h children i s s1 Hs Hi Hstep)
    as [Hs1|(pre&ch&post&cs&Hf)].
  - apply IH; [done|lia|done].
  - assert (done_something s1 = true) as Hdone by apply Hf.
    destruct n; [done|]. cbn [for_loop].
    by rewrite Hdone, andb_false_r.
Qed.

Lemma VisitCompoundStmt_total compound p children :
  ast p !! compound = Some (CompoundStmt children) →
  (∀ q, q ∈ children → is_Some (ast p !! q)) →
  is_Some (VisitCompoundStmt compound p).
Proof.
  intros Hc Halloc. unfold VisitCompoundStmt. rewrite Hc.
  destruct (for_loop_total (ast p) children (length children) 0
              (init (ast p) children)) as [s Hs]; try done.
  { unfold scanning, init; simpl. split_and!; try done; [constructor|].
    by exists []. }
  unfold scan. fold (init (ast p) children). by rewrite Hs.
Qed.

(** *** The visit of a block

    A visit either leaves the pass as it was or fuses one run: in the
    latter case it allocates the replacement block and records it under
    the visited block. *)
Lemma VisitCompoundStmt_spec compound p r p' children :
  ast p !! compound = Some (CompoundStmt children) →
  VisitCompoundStmt compound p = Some (r, p') →
  r = negb (stopped p) ∧
  (p' = p ∨
   ∃ s pre ch post cs,
     fused (ast p) children s pre ch post cs ∧
     (fresh (dom (ast p)) ∉ dom (heap s)) ∧
     p' = {| ast := <[fresh (dom (ast p)) := CompoundStmt (body s)]> (heap s);
             substitutions :=
               <[compound := fresh (dom (ast p))]> (substitutions p);
             stopped := stopped p |}).
Proof.
  intros Hc Hvisit. unfold VisitCompoundStmt in Hvisit.
  rewrite Hc in Hvisit.
  destruct (scan (ast p) children) as [s|] eqn:Hscan; [|done].
  simpl in Hvisit.
  destruct (scan_spec _ _ _ Hscan) as [(Hd&Hb&Hh)|(pre&ch&post&cs&Hf)].
  - rewrite Hd, Hh in Hvisit. injection Hvisit as <- <-.
    split; [done|]. left. by destruct p.
  - assert (done_something s = true) as Hd by apply Hf.
    assert (dom (heap s) = dom (ast p)) as Hdom.
    { eapply else_set_dom. apply Hf. }
    rewrite Hd in Hvisit. unfold CreateCompoundStmt in Hvisit.
    rewrite Hdom in Hvisit.
    injection Hvisit as <- <-. split; [done|]. right.
    exists s, pre, ch, post, cs. split_and!; [done| |done].
    rewrite Hdom. apply is_fresh.
Qed.
End ScanFacts.

(** ** The machine-integer solver is a decision procedure *)

Section BitVectorFacts.
Variable w : nat.

Lemma modulus_pos : (0 < modulus w)%Z.
Proof. unfold modulus. apply Z.pow_pos_nonneg; lia. Qed.

Lemma elem_of_values v : v ∈ values w ↔ (0 ≤ v < modulus w)%Z.
Proof.
  assert (modulus w = Z.of_nat (2 ^ w)) as ->
    by (unfold modulus; by rewrite Nat2Z.inj_pow).
  unfold values. rewrite list_elem_of_fmap. split.
  - intros (n&->&Hn%elem_of_seq). lia.
  - intros Hv. exists (Z.to_nat v). split; [lia|].
    apply elem_of_seq. lia.
Qed.

Lemma eval_cond_ext env env' c :
  (∀ x, x < cond_vars c → env x = env' x) →
  eval_cond w env c = eval_cond w env' c.
Proof.
  assert (∀ t, (∀ x, x < term_vars t → env x = env' x) →
               eval_term w env t = eval_term w env' t) as Hterm.
  { intros [x|n] H; simpl in *; [apply H; lia|done]. }
  induction c as [| |a b|sg a b|c IH|c1 IH1 c2 IH2|c1 IH1 c2 IH2];
    simpl; intros H; try done.
  - rewrite (Hterm a), (Hterm b); [done|intros; apply H; lia..].
  - rewrite (Hterm a), (Hterm b); [done|intros; apply H; lia..].
  - by rewrite IH.
  - rewrite IH1, IH2; [done|intros; apply H; lia..].
  - rewrite IH1, IH2; [done|intros; apply H; lia..].
Qed.

Lemma assignments_complete k (env : nat → Z) :
  (∀ x, (0 ≤ env x < modulus w)%Z) →
  ∃ env', env' ∈ assignments w k ∧ ∀ x, x < k → env' x = env x.
Proof.
  intros Henv. induction k as [|k (env'&Hin&Hagree)].
  { exists (λ _, 0%Z). split; [set_solver|]. intros; lia. }
  exists (assign env' k (env k)). split.
  - simpl. apply list_elem_of_bind. exists env'. split; [|done].
    apply list_elem_of_bind. exists (env k).
    split; [set_solver|]. by apply elem_of_values.
  - intros x Hx. unfold assign. case_decide; [by subst|].
    apply Hagree. lia.
Qed.

Lemma assignments_range k env x :
  env ∈ assignments w k → (0 ≤ env x < modulus w)%Z.
Proof.
  revert env x. induction k as [|k IH]; intros env x; simpl.
  - intros ->%list_elem_of_singleton. pose proof modulus_pos. lia.
  - intros (env'&(v&->%list_elem_of_singleton&Hv)%list_elem_of_bind&Hin)
      %list_elem_of_bind.
    unfold assign. case_decide; [by apply elem_of_values|by apply IH].
Qed.

(** [bv_Prove] accepts exactly the formulas true in every model. *)
Lemma bv_Prove_spec c :
  bv_Prove w c = true ↔ ∀ m : bv_model, bv_eval w m c = true.
Proof.
  unfold bv_Prove, bv_eval. rewrite forallb_forall. split.
  - intros H m.
    destruct (assignments_complete (cond_vars c)
                (λ x, (m x mod modulus w)%Z)) as (env'&Hin&Hagree).
    { intros x. apply Z.mod_pos_bound, modulus_pos. }
    rewrite <-(eval_cond_ext env') by done.
    apply H. by apply list_elem_of_In.
  - intros H env Hin%list_elem_of_In.
    rewrite <-(H env). apply eval_cond_ext. intros x _.
    symmetry. apply Z.mod_small. by eapply assignments_range.
Qed.

Lemma bv_Prove_false c (m : bv_model) :
  bv_eval w m c = false → bv_Prove w c = false.
Proof.
  intros Hm. destruct (bv_Prove w c) eqn:Hp; [|done].
  rewrite bv_Prove_spec in Hp. congruence.
Qed.

#[export] Instance bv_sound : SolverSound (bv_solver w).
Proof.
  split; simpl; try done.
  - intros m es. unfold bv_eval.
    induction es as [|e es IH]; simpl; [done|]. by rewrite IH.
  - intros e H m. by apply bv_Prove_spec.
Qed.
End BitVectorFacts.

(** ** What a fusion needs *)

Section FusionConditions.
Context {Expr : Type} {Z3 : Solver Expr}.

(** C3.  A visit changes the pass (and so records a substitution) only
    for a run of more than two adjacent [if] statements without [else]
    whose disjunction [Prove] accepted; in particular a block of one or
    two statements is never rewritten, whatever [Prove] answers. *)
Theorem fusion_needs_three_and_complete
    compound (p p' : Pass Expr) r children :
  ast p !! compound = Some (CompoundStmt children) →
  VisitCompoundStmt compound p = Some (r, p') →
  (p' ≠ p →
   ∃ pre ch post cs,
     children = pre ++ ch ++ post ∧ 2 < length ch ∧
     Forall2 (λ stmt c, GetZ3Cond (ast p) stmt = Some c ∧
                        getElse (ast p) stmt = Some None) ch cs ∧
     Prove (mk_or cs) = true) ∧
  (length children ≤ 2 → p' = p).
Proof.
  intros Hc Hvisit.
  destruct (VisitCompoundStmt_spec _ _ _ _ _ Hc Hvisit)
    as [_ [->|(s&pre&ch&post&cs&Hf&_)]]; [done|].
  destruct Hf as (Hsplit&Hch&Hlen&Hcomplete&_).
  split.
  - intros _. exists pre, ch, post, cs.
    split_and!; try done. by apply chain_conds.
  - rewrite Hsplit, !length_app. lia.
Qed.

Context {Hsound : SolverSound Z3}.

Lemma chain_pairwise_exclusive h stmts cs i j ci cj m :
  chain h stmts cs → i < j →
  cs !! i = Some ci → cs !! j = Some cj →
  z3_eval m (z3_and ci cj) = false.
Proof.
  intros Hch Hij Hi Hj.
  pose proof (Prove_sound _ (chain_exclusive _ _ _ _ _ Hch Hj) m) as Hex.
  rewrite eval_not, eval_and, eval_mk_or in Hex.
  rewrite eval_and.
  destruct (z3_eval m ci) eqn:Hci; [|done].
  destruct (z3_eval m cj) eqn:Hcj; [|done].
  simpl in Hex. apply negb_true_iff, not_true_iff_false in Hex.
  destruct Hex. apply existsb_exists. exists ci. split; [|done].
  apply list_elem_of_In, list_elem_of_lookup. exists i.
  by rewrite lookup_take_lt.
Qed.

End FusionConditions.

(** ** Running the scan by hand *)

Section Steps.
Context {Expr : Type} {Z3 : Solver Expr}.

Lemma for_loop_S n i (s : Locals Expr) :
  for_loop (S n) i s =
  if (i <? length (body s)) && negb (done_something s)
  then loop_body i s ≫= for_loop n (S i) else Some s.
Proof. done. Qed.

Lemma loop_body_accept i (s : Locals Expr) stmt c t :
  body s !! i = Some stmt →
  heap s !! stmt = Some (IfStmt c t None) →
  Prove (z3_not (z3_and (Z3Cond c) (mk_or (conds s)))) = true →
  loop_body i s =
  let s' := push_cond (Z3Cond c) (push_if stmt s) in
  if (length (ifs s') <=? 2) || negb (Prove (mk_or (conds s')))
  then Some s' else fuse i s'.
Proof.
  intros Hb Hh Hp. unfold loop_body.
  rewrite Hb; simpl. rewrite Hh; simpl. by rewrite Hp.
Qed.

Lemma loop_body_reject i (s : Locals Expr) stmt c t :
  body s !! i = Some stmt →
  heap s !! stmt = Some (IfStmt c t None) →
  Prove (z3_not (z3_and (Z3Cond c) (mk_or (conds s)))) = false →
  loop_body i s = Some (ResetChain (push_if stmt s)).
Proof.
  intros Hb Hh Hp. unfold loop_body.
  rewrite Hb; simpl. rewrite Hh; simpl. by rewrite Hp.
Qed.
End Steps.

Ltac loop_step lem :=
  rewrite for_loop_S;
  cbn [body done_something length Nat.ltb Nat.leb negb andb];
  erewrite lem; [|by vm_compute|by vm_compute|];
  [cbn [push_cond push_if ResetChain body ifs conds done_something heap
        length app Nat.leb orb negb mbind option_bind]|].

(** ** The example blocks over machine integers of any width *)

Section Examples.
Variable w : nat.

Lemma lit_small n : 2 ≤ w → (0 ≤ n < 4)%Z → (n mod modulus w = n)%Z.
Proof.
  intros Hw Hn. apply Z.mod_small. unfold modulus.
  assert (2 ^ 2 ≤ 2 ^ Z.of_nat w)%Z by (apply Z.pow_le_mono_r; lia). lia.
Qed.

Lemma half_modulus : 3 ≤ w → (4 ≤ modulus w / 2)%Z.
Proof.
  intros Hw. apply Z.div_le_lower_bound; [done|]. unfold modulus.
  assert (2 ^ 3 ≤ 2 ^ Z.of_nat w)%Z by (apply Z.pow_le_mono_r; lia). lia.
Qed.

Lemma ones_value x : (ones x mod modulus w = modulus w - 1)%Z.
Proof.
  pose proof (modulus_pos w). unfold ones.
  symmetry. apply (Z.mod_unique_pos _ _ (-1)); lia.
Qed.

Ltac bv_cases Hw :=
  pose proof (modulus_pos w);
  unfold bv_eval, x_eq, x_ge; simpl;
  rewrite ?(lit_small 0 Hw), ?(lit_small 1 Hw), ?(lit_small 2 Hw) by lia;
  repeat match goal with
  | |- context [(?a =? ?b)%Z] => destruct (Z.eqb_spec a b)
  | |- context [(?a <=? ?b)%Z] => destruct (Z.leb_spec a b)
  end; simpl; try done; try lia.

(** Nothing is reachable from an empty run. *)
Lemma exclusive_first c : bv_Prove w (CNot (CAnd c (bv_mk_or []))) = true.
Proof.
  apply bv_Prove_spec. intros m. unfold bv_eval; simpl.
  by rewrite andb_false_r.
Qed.

Lemma exclusive_1_0 :
  2 ≤ w → bv_Prove w (CNot (CAnd (x_eq 1) (bv_mk_or [x_eq 0]))) = true.
Proof. intros Hw. apply bv_Prove_spec. intros m. bv_cases Hw. Qed.

Lemma exclusive_ge2_01 :
  2 ≤ w →
  bv_Prove w (CNot (CAnd (x_ge Unsigned 2) (bv_mk_or [x_eq 0; x_eq 1])))
  = true.
Proof. intros Hw. apply bv_Prove_spec. intros m. bv_cases Hw. Qed.

Lemma complete_unsigned :
  2 ≤ w → bv_Prove w (bv_mk_or [x_eq 0; x_eq 1; x_ge Unsigned 2]) = true.
Proof.
  intros Hw. apply bv_Prove_spec. intros m.
  pose proof (Z.mod_pos_bound (m 0) (modulus w) (modulus_pos w)).
  bv_cases Hw.
Qed.

Lemma signed_small v : 3 ≤ w → (0 ≤ v < 4)%Z → signed w v = v.
Proof.
  intros Hw Hv. unfold signed. pose proof (half_modulus Hw).
  destruct (Z.ltb_spec v (modulus w / 2)); lia.
Qed.

Lemma signed_ones : 3 ≤ w → signed w (modulus w - 1) = (-1)%Z.
Proof.
  intros Hw. unfold signed. pose proof (half_modulus Hw).
  pose proof (Z.div_mod (modulus w) 2 ltac:(done)).
  pose proof (Z.mod_pos_bound (modulus w) 2 ltac:(done)).
  destruct (Z.ltb_spec (modulus w - 1) (modulus w / 2)); lia.
Qed.

Lemma exclusive_sge2_01 :
  3 ≤ w →
  bv_Prove w (CNot (CAnd (x_ge Signed 2) (bv_mk_or [x_eq 0; x_eq 1])))
  = true.
Proof.
  intros Hw. assert (2 ≤ w) as Hw' by lia.
  apply bv_Prove_spec. intros m.
  unfold bv_eval, x_eq, x_ge; simpl.
  rewrite ?(lit_small 0 Hw'), ?(lit_small 1 Hw'), ?(lit_small 2 Hw') by lia.
  rewrite (signed_small 2) by (done || lia).
  destruct (Z.eqb_spec (m 0 mod modulus w) 0) as [->|];
    [by rewrite signed_small by (done || lia)|].
  destruct (Z.eqb_spec (m 0 mod modulus w) 1) as [->|];
    [by rewrite signed_small by (done || lia)|].
  simpl. by rewrite andb_false_r.
Qed.

(** Over signed integers the three conditions leave out the negative
    values. *)
Lemma incomplete_at_minus_1 :
  3 ≤ w → bv_eval w ones (bv_mk_or [x_eq 0; x_eq 1; x_ge Signed 2]) = false.
Proof.
  intros Hw. assert (2 ≤ w) as Hw' by lia.
  pose proof (half_modulus Hw).
  unfold bv_eval, x_eq, x_ge; simpl.
  rewrite ?(lit_small 0 Hw'), ?(lit_small 1 Hw'), ?(lit_small 2 Hw') by lia.
  rewrite ones_value.
  rewrite signed_ones, (signed_small 2) by (done || lia).
  pose proof (Z.div_mod (modulus w) 2 ltac:(done)).
  pose proof (Z.mod_pos_bound (modulus w) 2 ltac:(done)).
  destruct (Z.eqb_spec (modulus w - 1) 0); [lia|].
  destruct (Z.eqb_spec (modulus w - 1) 1); [lia|]. done.
Qed.

Lemma same_condition_overlaps :
  bv_Prove w (CNot (CAnd (x_eq 0) (bv_mk_or [x_eq 0]))) = false.
Proof. by apply (bv_Prove_false w _ zeros). Qed.

Local Opaque bv_Prove.

Lemma visit_block3_unsigned :
  2 ≤ w →
  VisitCompoundStmt (Z3 := bv_solver w) 0 (pass0 (block3 Unsigned))
  = Some (true, block3_fused).
Proof.
  intros Hw. unfold VisitCompoundStmt.
  replace (ast (pass0 (block3 Unsigned)) !! 0)
    with (Some (CompoundStmt (Expr := Cond) [1; 2; 3])) by (by vm_compute).
  unfold scan, pass0. cbn [length ast].
  loop_step @loop_body_accept; [|apply exclusive_first].
  loop_step @loop_body_accept; [|by apply exclusive_1_0].
  loop_step @loop_body_accept; [|by apply exclusive_ge2_01].
  pose proof (complete_unsigned Hw) as Hc.
  unfold x_eq, x_ge, bv_mk_or in Hc; simpl foldr in Hc.
  cbn [Prove mk_or Z3Cond bv_solver]. unfold bv_mk_or; simpl foldr.
  rewrite Hc. by vm_compute.
Qed.

Lemma visit_block3_signed :
  3 ≤ w →
  VisitCompoundStmt (Z3 := bv_solver w) 0 (pass0 (block3 Signed))
  = Some (true, pass0 (block3 Signed)).
Proof.
  intros Hw. unfold VisitCompoundStmt.
  replace (ast (pass0 (block3 Signed)) !! 0)
    with (Some (CompoundStmt (Expr := Cond) [1; 2; 3])) by (by vm_compute).
  unfold scan, pass0. cbn [length ast].
  loop_step @loop_body_accept; [|apply exclusive_first].
  loop_step @loop_body_accept; [|apply exclusive_1_0; lia].
  loop_step @loop_body_accept; [|by apply exclusive_sge2_01].
  pose proof (bv_Prove_false w _ ones (incomplete_at_minus_1 Hw)) as Hc.
  unfold x_eq, x_ge, bv_mk_or in Hc; simpl foldr in Hc.
  cbn [Prove mk_or Z3Cond bv_solver]. unfold bv_mk_or; simpl foldr.
  rewrite Hc. by vm_compute.
Qed.

Lemma visit_block2 :
  VisitCompoundStmt (Z3 := bv_solver w) 0 (pass0 block2)
  = Some (true, pass0 block2).
Proof.
  unfold VisitCompoundStmt.
  replace (ast (pass0 block2) !! 0)
    with (Some (CompoundStmt (Expr := Cond) [1; 2])) by (by vm_compute).
  unfold scan, pass0. cbn [length ast].
  loop_step @loop_body_accept; [|apply exclusive_first].
  loop_step @loop_body_reject; [|apply same_condition_overlaps].
  by vm_compute.
Qed.

(** C4.  Over an unsigned [x] of at least two bits the visit of
    [{ if(x==0){A} if(x==1){B} if(x>=2){C} }] records a replacement that
    reads [{ if(x==0){A} else if(x==1){B} else {C} }]: the disjunction
    of the three conditions holds in every model and no two of them
    hold together. *)
Theorem unsigned_example_fuses :
  2 ≤ w →
  VisitCompoundStmt (Z3 := bv_solver w) 0 (pass0 (block3 Unsigned))
    = Some (true, block3_fused) ∧
  denote 4 (block3 Unsigned) 0 = Some (SCompound three_ifs) ∧
  substitutions block3_fused !! 0 = Some 10 ∧
  denote 5 (ast block3_fused) 10 = Some (SCompound [ladder3]) ∧
  (∀ m, bv_eval w m (bv_mk_or [x_eq 0; x_eq 1; x_ge Unsigned 2]) = true) ∧
  (∀ m, bv_eval w m (CAnd (x_eq 0) (x_eq 1)) = false ∧
        bv_eval w m (CAnd (x_eq 0) (x_ge Unsigned 2)) = false ∧
        bv_eval w m (CAnd (x_eq 1) (x_ge Unsigned 2)) = false).
Proof.
  intros Hw. split_and!.
  - by apply visit_block3_unsigned.
  - by vm_compute.
  - by vm_compute.
  - by vm_compute.
  - apply bv_Prove_spec. by apply complete_unsigned.
  - intros m. split_and!; bv_cases Hw.
Qed.

(** C5.  The visit of [{ if(x==0){A} if(x==0){B} }] changes nothing and
    records nothing: the second condition is not proved unreachable
    from the first. *)
Theorem identical_conditions_not_fused :
  VisitCompoundStmt (Z3 := bv_solver w) 0 (pass0 block2)
    = Some (true, pass0 block2) ∧
  bv_Prove w (CNot (CAnd (x_eq 0) (bv_mk_or [x_eq 0]))) = false.
Proof. split; [apply visit_block2|apply same_condition_overlaps]. Qed.
End Examples.

(** ** The field renamer *)

Section FieldRenamer.
Implicit Types (s : Renamer) (di_fields decl_fields : list string).

(** The loop with enough debug-info elements: the fields already passed
    keep their names, every later field [j] is renamed after element
    [j]. *)
Lemma rename_loop_in_bounds n i di_fields seen_names decl_fields :
  i + n = length decl_fields →
  length decl_fields ≤ length di_fields →
  seen_names = list_to_set (take i di_fields) →
  ∃ names,
    rename_loop n i di_fields seen_names decl_fields = Returned names ∧
    length names = length decl_fields ∧
    (∀ j, j < i → names !! j = decl_fields !! j) ∧
    (∀ j old_name, i ≤ j → decl_fields !! j = Some old_name →
       ∃ name, di_fields !! j = Some name ∧
               names !! j = Some (renamed di_fields j name old_name)).
Proof.
  revert i seen_names decl_fields.
  induction n as [|n IH]; intros i seen fs Hn Hlen Hseen.
  { exists fs. simpl. split_and!; try done.
    intros j old Hj Hold%lookup_lt_Some. lia. }
  simpl. destruct (Nat.ltb_spec i (length fs)); [|lia].
  destruct (lookup_lt_is_Some_2 fs i) as [old Hold]; [done|].
  destruct (lookup_lt_is_Some_2 di_fields i) as [name Hname]; [lia|].
  rewrite Hold, Hname.
  assert (∀ new seen',
    seen' = list_to_set (take (S i) di_fields) →
    new = renamed di_fields i name old →
    ∃ names,
      rename_loop n (S i) di_fields seen' (<[i := new]> fs)
        = Returned names ∧
      length names = length fs ∧
      (∀ j, j < i → names !! j = fs !! j) ∧
      (∀ j old_name, i ≤ j → fs !! j = Some old_name →
         ∃ name, di_fields !! j = Some name ∧
                 names !! j = Some (renamed di_fields j name old_name)))
    as Hstep.
  { intros new seen' Hseen' Hnew.
    destruct (IH (S i) seen' (<[i := new]> fs))
      as (names&Hloop&Hl&Hbefore&Hafter);
      rewrite ?length_insert; try done; [lia|].
    rewrite length_insert in Hl.
    exists names. split_and!; try done.
    - intros j Hj. rewrite Hbefore by lia.
      apply list_lookup_insert_ne. lia.
    - intros j old' Hj Hold'.
      destruct (decide (j = i)) as [->|Hne].
      + exists name. split; [done|].
        rewrite Hbefore by lia. rewrite list_lookup_insert_eq by done.
        congruence.
      + apply Hafter; [lia|]. rewrite list_lookup_insert_ne by done.
        done. }
  assert (name ∈ seen ↔ name ∈ take i di_fields) as Hin
    by (by rewrite Hseen, elem_of_list_to_set).
  destruct (decide (name ∈ seen)) as [Hs|Hs].
  - apply Hstep.
    + rewrite Hseen. erewrite take_S_r by done.
      rewrite list_to_set_app_L. simpl. apply Hin in Hs.
      apply (elem_of_list_to_set (C := gset string)) in Hs. set_solver.
    + unfold renamed. rewrite decide_True; [done|by apply Hin].
  - apply Hstep.
    + rewrite Hseen. erewrite take_S_r by done.
      rewrite list_to_set_app_L. simpl. set_solver.
    + unfold renamed. rewrite decide_False; [done|by rewrite <-Hin].
Qed.

(** The loop with too few debug-info elements reads past their end. *)
Lemma rename_loop_out_of_bounds n i di_fields seen_names decl_fields :
  i + n = length decl_fields →
  i ≤ length di_fields → length di_fields < length decl_fields →
  rename_loop n i di_fields seen_names decl_fields = Undefined OutOfBounds.
Proof.
  revert i seen_names decl_fields.
  induction n as [|n IH]; intros i seen fs Hn Hi Hlen; [lia|].
  simpl. destruct (Nat.ltb_spec i (length fs)); [|lia].
  destruct (lookup_lt_is_Some_2 fs i) as [old ->]; [done|].
  destruct (di_fields !! i) as [name|] eqn:Hname; [|done].
  apply lookup_lt_Some in Hname.
  destruct (decide (name ∈ seen)); apply IH;
    rewrite ?length_insert; lia.
Qed.

Lemma VisitRecordDecl_decls decl s b s' :
  VisitRecordDecl decl s = Returned (b, s') → decls s' = decls s.
Proof.
  unfold VisitRecordDecl. intros H.
  repeat case_match; simplify_eq; done.
Qed.

(** A record whose IR type has no debug info is passed over. *)
Lemma missing_debug_info_is_skipped decl s type :
  decls s !! decl = Some type → types s !! type = None →
  VisitRecordDecl decl s = Returned (true, s).
Proof. intros Hd Ht. unfold VisitRecordDecl. by rewrite Hd, Ht. Qed.

(** C9.  A record declaration without an entry in [decls] makes the
    visit fail its [CHECK], whatever else the renamer knows; and a
    traversal that reaches such a declaration never returns: the
    declaration is not skipped and nothing is renamed after it. *)
Theorem missing_type_is_fatal decl s :
  decls s !! decl = None →
  VisitRecordDecl decl s
    = Fatal "Type information not present for declaration" ∧
  ∀ order s', decl ∈ order → VisitRecordDecls order s ≠ Returned s'.
Proof.
  intros Hdecl. split.
  { unfold VisitRecordDecl. by rewrite Hdecl. }
  intros order. revert s Hdecl.
  induction order as [|d order IH]; intros s Hdecl s' Hin;
    [by apply elem_of_nil in Hin|].
  simpl. destruct (decide (d = decl)) as [->|Hne].
  { unfold VisitRecordDecl. by rewrite Hdecl. }
  destruct (VisitRecordDecl d s) as [[b s1]| |] eqn:Hvisit; try done.
  destruct b.
  - apply IH; [|set_solver].
    by rewrite (VisitRecordDecl_decls _ _ _ _ Hvisit).
  - (* the visit never returns false *)
    unfold VisitRecordDecl in Hvisit.
    repeat case_match; simplify_eq.
Qed.

(** C10.  For a record with a debug-info composite type, the loop
    indexes the debug-info elements with every field index and does not
    compare the two lengths: when there are at least as many elements as
    fields, the visit returns and field [i] is named after element [i];
    when there are fewer, the visit reads past the end of the element
    list. *)
Theorem rename_uses_ith_element_unguarded
    decl s type elements di_fields decl_fields :
  decls s !! decl = Some type →
  types s !! type = Some (DICompositeType elements) →
  mapM derived_name elements = Some di_fields →
  record_fields s !! decl = Some decl_fields →
  (length decl_fields ≤ length di_fields →
   ∃ names,
     VisitRecordDecl decl s
       = Returned (true,
                   {| decls := decls s; types := types s;
                      record_fields :=
                        <[decl := names]> (record_fields s) |}) ∧
     length names = length decl_fields ∧
     ∀ i old_name, decl_fields !! i = Some old_name →
       ∃ name, di_fields !! i = Some name ∧
               names !! i = Some (renamed di_fields i name old_name)) ∧
  (length di_fields < length decl_fields →
   VisitRecordDecl decl s = Undefined OutOfBounds).
Proof.
  intros Hdecl Htype Hcast Hfields. unfold VisitRecordDecl.
  rewrite Hdecl, Htype, Hfields, Hcast. split; intros Hlen.
  - destruct (rename_loop_in_bounds (length decl_fields) 0 di_fields ∅
                decl_fields) as (names&->&Hl&_&Hnames); try done.
    exists names. split_and!; try done.
    intros i old. apply Hnames. lia.
  - rewrite rename_loop_out_of_bounds; try done. lia.
Qed.
End FieldRenamer.

(** ** Reading trees from the store *)

Section Denote.
Context {Expr : Type}.

Local Abbreviation store := (gmap nat (StmtNode Expr)).
Implicit Types (h : store) (T : Stmt Expr).

Lemma denote_mono f f' h p T :
  denote f h p = Some T → f ≤ f' → denote f' h p = Some T.
Proof.
  revert f' p T. induction f as [|f IH]; intros f' p T Hd Hle; [done|].
  destruct f' as [|f']; [lia|]. simpl in *.
  destruct (h !! p) as [[c t e|l|k]|]; try done.
  - destruct (denote f h t) as [t'|] eqn:Ht; [|done].
    rewrite (IH f' t t') by (done || lia). simpl in *.
    destruct e as [e|]; [|done].
    destruct (denote f h e) as [e'|] eqn:He; [|done].
    by rewrite (IH f' e e') by (done || lia).
  - destruct (mapM (denote f h) l) as [k|] eqn:Hl; [|done].
    simpl in *. injection Hd as <-.
    apply mapM_Some in Hl.
    assert (mapM (denote f' h) l = Some k) as ->; [|done].
    apply mapM_Some. eapply Forall2_impl; [done|].
    intros q T' Hq. apply IH; [done|lia].
Qed.

(** Every address [nodes] lists is a node of the store. *)
Lemma nodes_allocated f h p q : q ∈ nodes f h p → is_Some (h !! q).
Proof.
  revert p. induction f as [|f IH]; intros p; simpl;
    [by intros ?%elem_of_nil|].
  destruct (h !! p) as [[c t e|l|k]|] eqn:Hp;
    rewrite ?elem_of_cons, ?elem_of_app.
  - intros [->|[Ht|He]]; [by eexists|by eapply IH|].
    destruct e as [e|]; simpl in He; [by eapply IH|by apply elem_of_nil in He].
  - intros [->|Hq]; [by eexists|].
    apply list_elem_of_In, in_concat in Hq as (ns&Hns&Hq).
    apply in_map_iff in Hns as (p'&<-&_).
    apply list_elem_of_In in Hq. by eapply IH.
  - intros [->|?%elem_of_nil]; [by eexists|done].
  - by intros ?%elem_of_nil.
Qed.

(** A tree read from [h] is read from every store that agrees with [h]
    on the nodes of the tree. *)
Lemma denote_frame f h h' p T :
  denote f h p = Some T →
  (∀ q, q ∈ nodes f h p → h' !! q = h !! q) →
  denote f h' p = Some T.
Proof.
  revert p T. induction f as [|f IH]; intros p T Hd Hagree; [done|].
  simpl in *.
  destruct (h !! p) as [[c t e|l|k]|] eqn:Hp; try done.
  - rewrite Hagree, Hp by set_solver.
    destruct (denote f h t) as [t'|] eqn:Ht; [|done].
    rewrite (IH t t') by (done || set_solver). simpl in *.
    destruct e as [e|]; [|done].
    destruct (denote f h e) as [e'|] eqn:He; [|done].
    rewrite (IH e e'); [done..|].
    intros q Hq. apply Hagree. simpl. set_solver.
  - rewrite Hagree, Hp by set_solver.
    destruct (mapM (denote f h) l) as [k|] eqn:Hl; [|done].
    simpl in *. injection Hd as <-.
    apply mapM_Some in Hl.
    assert (mapM (denote f h') l = Some k) as ->; [|done].
    apply mapM_Some.
    assert (∀ q, q ∈ concat (map (nodes f h) l) → h' !! q = h !! q)
      as Hl' by (intros; apply Hagree; set_solver).
    clear Hagree Hp. induction Hl as [|q T' l k Hq Hl IHl]; [constructor|].
    simpl in Hl'. constructor.
    + apply IH; [done|]. intros; apply Hl'; set_solver.
    + apply IHl. intros; apply Hl'; set_solver.
  - by rewrite Hagree, Hp by set_solver.
Qed.
End Denote.

(** ** The fused statement *)

Section Fusion.
Context {Expr : Type} {Z3 : Solver Expr}.

Local Abbreviation store := (gmap nat (StmtNode Expr)).
Implicit Types (h : store) (T : Stmt Expr).

Lemma else_set_outside M h h' q :
  else_set M h h' → q ∉ M → h' !! q = h !! q.
Proof. intros H Hq. by destruct (H q) as [?|[??]]. Qed.

Lemma elem_of_ptrs (l : list (ptr * Expr * ptr)) p :
  p ∈ l.*1.*1 ↔ ∃ c t, (p, c, t) ∈ l.
Proof.
  rewrite list_elem_of_fmap. split.
  - intros ([p' c]&->&Hp). apply list_elem_of_fmap in Hp as ([[p'' c'] t]&?&Hp).
    simplify_eq/=. eauto.
  - intros (c&t&Hp). exists (p, c). split; [done|].
    apply list_elem_of_fmap. by exists (p, c, t).
Qed.

(** On statements that are pairwise different the chaining loop wires
    the run as described. *)
Lemma link_wired front back rest a ca ta ea h h' :
  NoDup (a :: rest.*1.*1) → front ∉ rest.*1.*1 →
  last (rest.*1.*1) = Some back →
  h !! a = Some (IfStmt ca ta ea) →
  (∀ q c t, (q, c, t) ∈ rest → h !! q = Some (IfStmt c t None)) →
  link front back (rest.*1.*1) a h = Some h' →
  wired h' ((a, ca, ta) :: rest).
Proof.
  revert a ca ta ea h.
  induction rest as [|[[q cq] tq] rest IH];
    intros a ca ta ea h Hnd Hfront Hlast Ha Hrest Hlink; [done|].
  assert (∀ p c t, (p, c, t) ∈ (q, cq, tq) :: rest → p ∈ q :: rest.*1.*1)
    as Hptr.
  { intros p c t Hp. change (p ∈ ((q, cq, tq) :: rest).*1.*1).
    apply elem_of_ptrs. eauto. }
  pose proof (Hrest q cq tq ltac:(left)) as Hq.
  apply NoDup_cons in Hnd as [Ha_notin Hnd].
  simpl in *.
  rewrite decide_False in Hlink by set_solver.
  destruct rest as [|[[q2 c2] t2] rest2].
  - simpl in *. injection Hlast as <-.
    rewrite decide_True in Hlink by done.
    unfold getThen, setElse in Hlink. rewrite Hq in Hlink. simpl in Hlink.
    rewrite Ha in Hlink. simpl in Hlink. injection Hlink as <-.
    by rewrite lookup_insert_eq.
  - assert (q ≠ back) as Hqb.
    { intros ->. apply NoDup_cons in Hnd as [Hnd _]. apply Hnd.
      by apply last_Some_elem_of. }
    rewrite decide_False in Hlink by done.
    unfold setElse in Hlink at 1. rewrite Ha in Hlink.
    cbn [mbind option_bind] in Hlink.
    set (h1 := <[a := IfStmt ca ta (Some q)]> h) in *.
    assert (a ≠ q) as Haq by set_solver.
    assert (∀ p c t, (p, c, t) ∈ (q, cq, tq) :: (q2, c2, t2) :: rest2 →
                     h1 !! p = Some (IfStmt c t None)) as Hrest1.
    { intros p c t Hp. unfold h1. rewrite lookup_insert_ne; [by apply Hrest|].
      intros <-. apply Ha_notin. by eapply Hptr. }
    split.
    + destruct (link_else_set front back
                  (((q2, c2, t2) :: rest2).*1.*1) q h1) as (h2&Hh2&Hset).
      { intros p Hp. apply elem_of_cons in Hp as [->|Hp].
        - exists cq, tq, None. apply Hrest1. by left.
        - apply (elem_of_ptrs ((q2, c2, t2) :: rest2)) in Hp as (c&t&Hp).
          exists c, t, None. apply Hrest1. by right. }
      assert (Some h2 = Some h') as [= ->]
        by exact (eq_trans (eq_sym Hh2) Hlink).
      rewrite (else_set_outside _ _ _ a Hset) by set_solver.
      unfold h1. by rewrite lookup_insert_eq.
    + eapply (IH q cq tq None h1); try done.
      * set_solver.
      * apply Hrest1. by left.
      * intros p c t Hp. apply Hrest1. by right.
Qed.

Lemma wired_agree h1 h2 (l : list (ptr * Expr * ptr)) :
  (∀ q, q ∈ l.*1.*1 → h2 !! q = h1 !! q) → wired h1 l → wired h2 l.
Proof.
  induction l as [|[[a c] t] l IH]; [done|]. intros Hagree.
  destruct l as [|[[b cb] tb] l2]; [done|].
  assert (h2 !! a = h1 !! a) as Ha by (apply Hagree; set_solver).
  assert (wired h1 ((b, cb, tb) :: l2) → wired h2 ((b, cb, tb) :: l2))
    as IH' by (apply IH; intros; apply Hagree; set_solver).
  intros Hw. destruct l2 as [|x l2].
  - cbn [wired] in *. by rewrite Ha.
  - destruct Hw as [Hw1 Hw2]. split; [by rewrite Ha|by apply IH'].
Qed.

(** Reading a wired run from its first statement gives the fused
    statement. *)
Lemma wired_denote f h a ca ta rest arms :
  wired h ((a, ca, ta) :: rest) → rest ≠ [] →
  Forall2 (λ '(q, c, t) arm, arm.1 = c ∧ denote f h t = Some arm.2)
    ((a, ca, ta) :: rest) arms →
  ∃ ladder, fused_stmt arms = Some ladder ∧
       denote (f + length ((a, ca, ta) :: rest)) h a = Some ladder.
Proof.
  revert a ca ta arms.
  induction rest as [|[[b cb] tb] rest IH];
    intros a ca ta arms Hw Hne Harms; [done|].
  apply Forall2_cons_inv_l in Harms as ([c Ta]&arms'&[Hc HTa]&Harms&->).
  simpl in Hc; subst c.
  destruct rest as [|x rest].
  - apply Forall2_cons_inv_l in Harms as ([c Tb]&arms''&[_ HTb]&Hnil&->).
    apply Forall2_nil_inv_l in Hnil as ->.
    exists (SIf ca Ta (Some Tb)). split; [done|].
    cbn [wired] in Hw.
    replace (f + length [(a, ca, ta); (b, cb, tb)]) with (S (S f))
      by (simpl; lia).
    assert (∃ k, k = S f) as (k&Hk) by eauto. rewrite <-Hk.
    cbn [denote]. rewrite Hw.
    rewrite (denote_mono f k h ta Ta) by (done || lia).
    rewrite (denote_mono f k h tb Tb) by (done || lia). done.
  - destruct Hw as [Ha Hw].
    destruct (IH b cb tb arms' Hw ltac:(done) Harms) as (S'&Hfused&Hd).
    exists (SIf ca Ta (Some S')). split.
    + destruct arms' as [|arm1 [|arm2 arms']].
      * by apply Forall2_nil_inv_r in Harms.
      * apply Forall2_cons_inv_r in Harms as (?&?&?&Hnil&?).
        apply Forall2_nil_inv_r in Hnil. simplify_eq.
      * cbn [fused_stmt] in *. destruct arm1. by rewrite Hfused.
    + replace (f + length ((a, ca, ta) :: (b, cb, tb) :: x :: rest))
        with (S (f + length ((b, cb, tb) :: x :: rest))) by (simpl; lia).
      cbn [denote]. rewrite Ha.
      rewrite (denote_mono f _ h ta Ta) by (done || lia).
      by rewrite Hd.
Qed.

(** The statements of a run, with their conditions and branches. *)
Lemma chain_triples h stmts cs :
  chain h stmts cs →
  ∃ l : list (ptr * Expr * ptr),
    l.*1.*1 = stmts ∧
    ∀ q c t, (q, c, t) ∈ l → h !! q = Some (IfStmt c t None).
Proof.
  induction 1 as [|stmts cs q c t _ (l&Hl&Hlook) Hq _].
  { exists []. split; [done|]. by intros ??? ?%elem_of_nil. }
  exists (l ++ [(q, c, t)]). split.
  - by rewrite !fmap_app, Hl.
  - intros q' c' t' [?|Hin%list_elem_of_singleton]%elem_of_app; [auto|].
    by simplify_eq.
Qed.

(** *** Blocks that are trees *)

Lemma nodes_in_concat f h (l : list ptr) p q :
  p ∈ l → q ∈ nodes f h p → q ∈ concat (map (nodes f h) l).
Proof.
  intros Hp Hq. apply list_elem_of_In, in_concat.
  exists (nodes f h p). split; [|by apply list_elem_of_In].
  apply in_map. by apply list_elem_of_In.
Qed.

Lemma NoDup_nodes_block f h (pre ch post : list ptr) :
  NoDup (concat (map (nodes f h) (pre ++ ch ++ post))) →
  (∀ q, q ∈ ch → q ∈ nodes f h q) →
  NoDup (concat (map (nodes f h) ch)) ∧
  ∀ p q, p ∈ pre ++ post → q ∈ ch → q ∉ nodes f h p.
Proof.
  rewrite !map_app, !concat_app.
  intros (_&Hpre&(Hch&Hpost&_)%NoDup_app)%NoDup_app Hhead.
  split; [done|]. intros p q [Hp|Hp]%elem_of_app Hq Hin.
  - apply (Hpre q); [by eapply nodes_in_concat|].
    apply elem_of_app. left. eapply nodes_in_concat; eauto.
  - apply (Hpost q); [|by eapply nodes_in_concat].
    eapply nodes_in_concat; eauto.
Qed.

Lemma NoDup_nodes_chain f h (l : list (ptr * Expr * ptr)) :
  (∀ q c t, (q, c, t) ∈ l → h !! q = Some (IfStmt c t None)) →
  NoDup (concat (map (nodes (S f) h) l.*1.*1)) →
  NoDup l.*1.*1 ∧
  ∀ q q' c t, q ∈ l.*1.*1 → (q', c, t) ∈ l → q ∉ nodes f h t.
Proof.
  induction l as [|[[a ca] ta] l IH]; intros Hlook Hnd.
  { split; [constructor|]. by intros ???? ?%elem_of_nil. }
  assert (∀ q c t, (q, c, t) ∈ (a, ca, ta) :: l →
            nodes (S f) h q = q :: nodes f h t ++ []) as Hnodes.
  { intros q c t Hq. simpl. by rewrite (Hlook q c t Hq). }
  assert (∀ q, q ∈ l.*1.*1 →
            q ∈ concat (map (nodes (S f) h) l.*1.*1)) as Hhead.
  { intros q Hq. eapply nodes_in_concat; [done|].
    apply elem_of_ptrs in Hq as (c&t&Hq).
    rewrite (Hnodes q c t) by by right. by left. }
  assert (∀ q c t x, (q, c, t) ∈ l → x ∈ nodes f h t →
            x ∈ concat (map (nodes (S f) h) l.*1.*1)) as Hbranch.
  { intros q c t x Hq Hx. eapply (nodes_in_concat _ _ _ q).
    - apply elem_of_ptrs. eauto.
    - rewrite (Hnodes q c t) by by right. set_solver. }
  cbn [fmap list_fmap map concat] in Hnd.
  change (list_fmap _ _ fst (list_fmap _ _ fst l)) with (l.*1.*1) in Hnd.
  cbn [fst] in Hnd. rewrite (Hnodes a ca ta) in Hnd by by left.
  rewrite app_nil_r in Hnd.
  apply NoDup_app in Hnd as (Ha&Hdisj&Hrest).
  apply NoDup_cons in Ha as [Ha _].
  destruct IH as [IH1 IH2]; [intros; apply Hlook; by right|done|].
  split.
  - cbn [fmap list_fmap].
    change (list_fmap _ _ fst (list_fmap _ _ fst l)) with (l.*1.*1).
    constructor; [|done]. intros Hin. apply (Hdisj a); [by left|auto].
  - intros q q' c t Hq Hq'.
    cbn [fmap list_fmap] in Hq.
    change (list_fmap _ _ fst (list_fmap _ _ fst l)) with (l.*1.*1) in Hq.
    apply elem_of_cons in Hq as [->|Hq];
      apply elem_of_cons in Hq' as [?|Hq']; simplify_eq.
    + done.
    + intros Hin. apply (Hdisj a); [by left|]. by eapply Hbranch.
    + intros Hin. apply (Hdisj q); [by right|auto].
    + by eapply IH2.
Qed.
End Fusion.

(** ** The replacement block *)

Section Replacement.
Context {Expr : Type} {Z3 : Solver Expr}.

Local Abbreviation store := (gmap nat (StmtNode Expr)).
Implicit Types (h : store) (T : Stmt Expr).

Lemma Forall2_impl_elem {A B} (P Q : A → B → Prop) l k :
  Forall2 P l k → (∀ x y, x ∈ l → P x y → Q x y) → Forall2 Q l k.
Proof.
  rewrite !Forall2_same_length_lookup. intros [Hlen HP] HPQ.
  split; [done|]. intros i x y Hx Hy.
  apply HPQ; [by eapply list_elem_of_lookup_2|by eapply HP].
Qed.

Lemma denote_compound f h p TB :
  denote f h p = Some (SCompound TB) →
  ∃ f1 children,
    f = S f1 ∧ h !! p = Some (CompoundStmt children) ∧
    Forall2 (λ q T, denote f1 h q = Some T) children TB.
Proof.
  destruct f as [|f1]; [done|]. simpl.
  destruct (h !! p) as [[c t e|l|k]|]; try done.
  - destruct (denote f1 h t); [|done]. simpl.
    destruct e; [|done]. by destruct (denote f1 h n).
  - destruct (mapM (denote f1 h) l) as [k|] eqn:Hl; [|done].
    intros [= <-]. exists f1, l. by apply mapM_Some in Hl.
Qed.

Lemma denote_if f h q c t T :
  h !! q = Some (IfStmt c t None) → denote f h q = Some T →
  ∃ f1 T', f = S f1 ∧ T = SIf c T' None ∧ denote f1 h t = Some T'.
Proof.
  intros Hq. destruct f as [|f1]; [done|]. simpl. rewrite Hq.
  destruct (denote f1 h t) as [T'|] eqn:HT'; [|done]. intros [= <-].
  by exists f1, T'.
Qed.

(** The trees of a run: one [if] statement per member. *)
Lemma chain_arms f h (l : list (ptr * Expr * ptr)) Ts :
  (∀ q c t, (q, c, t) ∈ l → h !! q = Some (IfStmt c t None)) →
  Forall2 (λ q T, denote (S f) h q = Some T) l.*1.*1 Ts →
  ∃ arms,
    Ts = if_stmt <$> arms ∧
    Forall2 (λ '(q, c, t) arm, arm.1 = c ∧ denote f h t = Some arm.2) l arms.
Proof.
  revert Ts. induction l as [|[[q c] t] l IH]; intros Ts Hlook HTs.
  { apply Forall2_nil_inv_l in HTs as ->. by exists []. }
  apply Forall2_cons_inv_l in HTs as (T&Ts'&HT&HTs&->).
  destruct (IH Ts') as (arms&->&Harms); [intros; apply Hlook; by right|done|].
  destruct (denote_if _ _ _ c t _ (Hlook q c t ltac:(by left)) HT)
    as (f1&T'&[= <-]&->&HT').
  exists ((c, T') :: arms). split; [done|]. by constructor.
Qed.

(** C1.  Take a block that is a tree and reads as the statements [TB].
    When a visit fuses, [TB] is [pre ++ chain ++ post] where [chain] is
    a run [if(c_1){t_1} ... if(c_n){t_n}] of at least three statements,
    and the block recorded as replacement reads as [pre], then the one
    statement [if(c_1){t_1} else if(c_2){t_2} ... else {t_n}], then
    [post]. *)
Theorem fused_block_is_else_if_ladder
    compound (p p' : Pass Expr) r f TB :
  VisitCompoundStmt compound p = Some (r, p') →
  p' ≠ p →
  NoDup (nodes f (ast p) compound) →
  denote f (ast p) compound = Some (SCompound TB) →
  ∃ new pre arms post ladder,
    substitutions p' = <[compound := new]> (substitutions p) ∧
    TB = pre ++ (if_stmt <$> arms) ++ post ∧
    2 < length arms ∧
    fused_stmt arms = Some ladder ∧
    denote (f + length arms) (ast p') new
      = Some (SCompound (pre ++ [ladder] ++ post)).
Proof.
  intros Hvisit Hne Hnd Hden.
  destruct (denote_compound _ _ _ _ Hden) as (f1&children&->&Hc&HTB).
  cbn [nodes] in Hnd. rewrite Hc in Hnd.
  apply NoDup_cons in Hnd as [_ Hnd].
  destruct (VisitCompoundStmt_spec _ _ _ _ _ Hc Hvisit)
    as [_ [->|(s&pre&ch&post&cs&Hf&Hnew&->)]]; [done|].
  clear Hne Hvisit Hden.
  set (h := ast p) in *. set (new := fresh (dom h)) in *.
  destruct Hf as (->&Hch&Hlen&_&_&Hbody&Hset&front&back&Hfront&Hback&Hlink).
  (* the trees of the three parts of the block *)
  apply Forall2_app_inv_l in HTB as (Tpre&TB'&HTpre&HTB&->).
  apply Forall2_app_inv_l in HTB as (Tch&Tpost&HTch&HTpost&->).
  destruct (chain_triples _ _ _ Hch) as (l&<-&Hlook).
  assert (∃ f2, f1 = S f2) as (f2&->).
  { destruct f1; [|eauto]. destruct HTch; [simpl in Hlen; lia|done]. }
  destruct (chain_arms _ _ _ _ Hlook HTch) as (arms&->&Harms).
  assert (length arms = length l) as Hlarms.
  { apply Forall2_length in Harms. done. }
  rewrite !length_fmap in Hlen.
  (* the block is a tree *)
  destruct (NoDup_nodes_block _ _ _ _ _ Hnd) as [Hndch Houter].
  { intros q (c&t&Hq)%elem_of_ptrs. cbn [nodes].
    rewrite (Hlook _ _ _ Hq). by left. }
  destruct (NoDup_nodes_chain _ _ _ Hlook Hndch) as [Hndl Hinner].
  (* the store after the visit agrees with the one before on every tree
     that holds no statement of the run *)
  cbn [ast substitutions].
  set (h' := <[new := CompoundStmt (body s)]> (heap s)).
  assert (∀ q, is_Some (h !! q) → h' !! q = heap s !! q) as Hold.
  { intros q Hq. unfold h'. apply lookup_insert_ne. intros <-.
    apply Hnew. rewrite (else_set_dom _ _ _ Hset). by apply elem_of_dom. }
  assert (∀ k q T, denote k h q = Some T →
            (∀ x, x ∈ l.*1.*1 → x ∉ nodes k h q) →
            denote k h' q = Some T) as Hframe.
  { intros k q T HT Hout. eapply denote_frame; [done|].
    intros x Hx. rewrite Hold by by eapply nodes_allocated.
    apply (else_set_outside _ _ _ _ Hset). intros ?. by eapply Hout. }
  (* the run is wired *)
  destruct l as [|[[a ca] ta] rest]; [simpl in Hlen; lia|].
  cbn [fmap list_fmap head fst] in Hfront. injection Hfront as <-.
  assert (wired h' ((a, ca, ta) :: rest)) as Hwired.
  { eapply (wired_agree (heap s)).
    { intros q (c&t&Hq)%elem_of_ptrs. apply Hold.
      rewrite (Hlook _ _ _ Hq). by eexists. }
    cbn [fmap list_fmap link fst] in Hlink.
    rewrite decide_True in Hlink by done.
    change (NoDup (a :: rest.*1.*1)) in Hndl.
    apply (link_wired a back rest a ca ta None h (heap s)).
    - done.
    - by apply NoDup_cons in Hndl as [??].
    - destruct rest as [|x rest]; [simpl in Hlen; lia|].
      by rewrite <-Hback.
    - apply Hlook. by left.
    - intros q c t Hq. apply Hlook. by right.
    - done. }
  destruct (wired_denote f2 h' a ca ta rest arms Hwired) as (ladder&HS&HdS).
  { destruct rest; [simpl in Hlen; lia|done]. }
  { eapply Forall2_impl_elem; [done|]. intros [[q c] t] arm Hq [? Harm].
    split; [done|]. apply Hframe; [done|].
    intros x Hx. by eapply Hinner. }
  (* the replacement block *)
  exists new, Tpre, arms, Tpost, ladder. split_and!; try done; [lia|].
  replace (S (S f2) + length arms)
    with (S (S f2 + length arms)) by lia.
  cbn [denote]. unfold h' at 1. rewrite lookup_insert_eq, Hbody.
  cbn [fmap list_fmap take fst].
  rewrite take_0.
  assert (mapM (denote (S f2 + length arms) h')
            (pre ++ [a] ++ post) = Some (Tpre ++ [ladder] ++ Tpost)) as ->;
    [|done].
  apply mapM_Some. repeat apply Forall2_app.
  - eapply Forall2_impl_elem; [done|]. intros q T Hq HT.
    eapply denote_mono; [|by apply Nat.le_add_r].
    apply Hframe; [done|]. intros x Hx. apply Houter; [set_solver|done].
  - repeat constructor. eapply denote_mono; [done|]. rewrite Hlarms. lia.
  - eapply Forall2_impl_elem; [done|]. intros q T Hq HT.
    eapply denote_mono; [|by apply Nat.le_add_r].
    apply Hframe; [done|]. intros x Hx. apply Houter; [set_solver|done].
Qed.
End Replacement.

(** ** What a visit does to the store and to the rest of the block *)

Section Effects.
Context {Expr : Type} {Z3 : Solver Expr}.

Local Abbreviation store := (gmap nat (StmtNode Expr)).

Lemma erase_app {A} (v tail : list A) start i :
  start ≤ i → i < length v →
  erase_at start (erase_range start i (v ++ tail))
  = erase_at start (erase_range start i v) ++ tail.
Proof.
  intros Hstart Hi. unfold erase_at, erase_range.
  rewrite (take_app_le v) by lia. rewrite (drop_app_le v) by lia.
  rewrite app_assoc.
  assert (S start ≤ length (take start v ++ drop i v)) as Hlen.
  { rewrite length_app, length_take, length_drop. lia. }
  rewrite take_app_le by lia. rewrite drop_app_le by lia.
  by rewrite app_assoc.
Qed.

Lemma fuse_with_tail i (s s' : Locals Expr) tail :
  i < length (body s) → fuse i s = Some s' →
  fuse i (with_tail tail s) = Some (with_tail tail s').
Proof.
  intros Hi. unfold fuse. cbn [with_tail ifs heap body].
  destruct (head (ifs s)) as [front|]; [|done].
  destruct (last (ifs s)) as [back|]; [|done].
  cbn [mbind option_bind].
  destruct (link front back (ifs s) front (heap s)) as [h'|]; [|done].
  cbn [mbind option_bind]. intros [= <-]. unfold with_tail at 2.
  cbn [body ifs conds done_something heap].
  by rewrite erase_app by lia.
Qed.

Lemma loop_body_with_tail i (s s' : Locals Expr) tail :
  i < length (body s) → loop_body i s = Some s' →
  loop_body i (with_tail tail s) = Some (with_tail tail s').
Proof.
  intros Hi. unfold loop_body. cbn [with_tail body heap].
  rewrite lookup_app_l by done.
  destruct (body s !! i) as [stmt|]; [|done]. cbn [mbind option_bind].
  destruct (heap s !! stmt) as [[c t e|l|k]|]; cbn [mbind option_bind];
    try (by intros [= <-]).
  destruct e; [by intros [= <-]|].
  cbn [push_if conds].
  destruct (negb _); [by intros [= <-]|].
  cbn [push_cond push_if ifs conds].
  destruct (_ || _); [by intros [= <-]|].
  apply (fuse_with_tail i (push_cond _ (push_if stmt s))). done.
Qed.

Lemma for_loop_with_tail n m i (s s' : Locals Expr) tail :
  for_loop n i s = Some s' → done_something s' = true →
  for_loop (n + m) i (with_tail tail s) = Some (with_tail tail s').
Proof.
  revert i s. induction n as [|n IH]; intros i s Hloop Hdone.
  { simpl in Hloop. injection Hloop as ->.
    destruct m; [done|]. cbn [Nat.add for_loop with_tail done_something].
    by rewrite Hdone, andb_false_r. }
  cbn [Nat.add for_loop] in *.
  destruct (done_something s) eqn:Hd.
  { rewrite andb_false_r in Hloop. injection Hloop as <-.
    cbn [with_tail done_something]. by rewrite Hd, andb_false_r. }
  destruct (Nat.ltb_spec i (length (body s))) as [Hi|Hi]; cbn [andb negb] in *.
  2:{ injection Hloop as <-. congruence. }
  cbn [with_tail body done_something]. rewrite Hd.
  destruct (Nat.ltb_spec i (length (body s ++ tail))) as [_|Hi'];
    [|rewrite length_app in Hi'; lia].
  cbn [andb negb].
  destruct (loop_body i s) as [s1|] eqn:Hstep; [|done].
  rewrite (loop_body_with_tail i s s1) by done.
  cbn [mbind option_bind] in *. by apply IH.
Qed.

(** Once a prefix of a block suffices for a fusion, what follows it is
    not looked at. *)
Lemma scan_with_tail (h : store) stmts tail s :
  scan h stmts = Some s → done_something s = true →
  scan h (stmts ++ tail) = Some (with_tail tail s).
Proof.
  intros Hscan Hdone. unfold scan. rewrite length_app.
  by apply (for_loop_with_tail _ _ 0 (init h stmts) s tail).
Qed.

(** C8.  The scan of a block ends with the first fusion: when the
    statements [stmts] at the start of a block are enough for a fusion,
    the visit of the block [stmts ++ tail] performs that fusion and
    copies [tail] to the replacement as it is, whether or not [tail]
    holds further runs that could be fused. *)
Theorem scan_ends_with_first_fusion compound (p : Pass Expr) stmts tail s :
  ast p !! compound = Some (CompoundStmt (stmts ++ tail)) →
  scan (ast p) stmts = Some s →
  done_something s = true →
  VisitCompoundStmt compound p
  = Some (negb (stopped p),
          {| ast := <[fresh (dom (heap s)) :=
                        CompoundStmt (body s ++ tail)]> (heap s);
             substitutions :=
               <[compound := fresh (dom (heap s))]> (substitutions p);
             stopped := stopped p |}).
Proof.
  intros Hc Hscan Hdone. unfold VisitCompoundStmt.
  rewrite Hc, (scan_with_tail _ _ _ _ Hscan Hdone).
  cbn [mbind option_bind with_tail done_something heap body].
  by rewrite Hdone.
Qed.

Lemma VisitCompoundStmt_store compound (p p' : Pass Expr) r children :
  ast p !! compound = Some (CompoundStmt children) →
  VisitCompoundStmt compound p = Some (r, p') →
  ast p' !! compound = Some (CompoundStmt children) ∧
  ∀ q node, ast p !! q = Some node →
    ast p' !! q = Some node ∨
    (q ∈ children ∧
     ∃ c t e, node = IfStmt c t None ∧
              ast p' !! q = Some (IfStmt c t (Some e))).
Proof.
  intros Hc Hvisit.
  destruct (VisitCompoundStmt_spec _ _ _ _ _ Hc Hvisit)
    as [_ [->|(s&pre&ch&post&cs&Hf&Hnew&->)]]; [by eauto|].
  destruct Hf as (->&Hch&_&_&_&_&Hset&_).
  assert (∀ q, is_Some (ast p !! q) →
            <[fresh (dom (ast p)) := CompoundStmt (body s)]> (heap s) !! q
            = heap s !! q) as Hold.
  { intros q Hq. apply lookup_insert_ne. intros <-.
    apply Hnew. rewrite (else_set_dom _ _ _ Hset). by apply elem_of_dom. }
  cbn [ast]. split.
  - rewrite Hold by by eexists.
    destruct (Hset compound) as [->|(Hin&_)]; [done|].
    destruct (chain_if _ _ _ _ Hch Hin) as (?&?&?). congruence.
  - intros q node Hq. rewrite Hold by by eexists.
    destruct (Hset q) as [->|(Hin&c&t&e&e'&Hq1&Hq2)]; [by left|].
    right. split; [set_solver|].
    destruct (chain_if _ _ _ _ Hch Hin) as (c'&t'&Hq3).
    exists c, t, e'. split; [congruence|done].
Qed.

(** C6.  A visit does not touch the block it visits and removes no
    node; the only nodes it changes are [if] statements of the block
    that had no [else]: their [else] pointer is set in place, during
    the visit.  Either nothing changes at all, or the visit also records
    a replacement for the block, at an address that was not in use. *)
Theorem visit_sets_else_in_place compound (p p' : Pass Expr) r children :
  ast p !! compound = Some (CompoundStmt children) →
  VisitCompoundStmt compound p = Some (r, p') →
  ast p' !! compound = Some (CompoundStmt children) ∧
  (∀ q node, ast p !! q = Some node →
     ast p' !! q = Some node ∨
     (q ∈ children ∧
      ∃ c t e, node = IfStmt c t None ∧
               ast p' !! q = Some (IfStmt c t (Some e)))) ∧
  (p' = p ∨
   ∃ new, ast p !! new = None ∧ is_Some (ast p' !! new) ∧
          substitutions p' = <[compound := new]> (substitutions p)).
Proof.
  intros Hc Hvisit.
  destruct (VisitCompoundStmt_store _ _ _ _ _ Hc Hvisit) as [Hc' Hkeep].
  split_and!; try done.
  destruct (VisitCompoundStmt_spec _ _ _ _ _ Hc Hvisit)
    as [_ [->|(s&pre&ch&post&cs&Hf&Hnew&->)]]; [by left|].
  right. exists (fresh (dom (ast p))). cbn [ast substitutions].
  split_and!; try done.
  - apply not_elem_of_dom. apply is_fresh.
  - rewrite lookup_insert_eq. by eexists.
Qed.

(** C7.  The replacement recorded by a visit is a block at an address
    that was not in use, recorded under the visited block only; it is
    not detached: its statements are statements of the visited block,
    in their order, and among them is the first [if] of the fused run,
    so the replacement shares nodes with the block it replaces. *)
Theorem replacement_shares_children compound (p p' : Pass Expr) r children :
  ast p !! compound = Some (CompoundStmt children) →
  VisitCompoundStmt compound p = Some (r, p') →
  p' ≠ p →
  ∃ new stmts first,
    substitutions p' = <[compound := new]> (substitutions p) ∧
    ast p !! new = None ∧
    ast p' !! new = Some (CompoundStmt stmts) ∧
    stmts `sublist_of` children ∧
    first ∈ stmts ∧ first ∈ children ∧ is_if (ast p) first ∧
    first ∈ nodes 2 (ast p') new ∧ first ∈ nodes 2 (ast p') compound.
Proof.
  intros Hc Hvisit Hne.
  destruct (VisitCompoundStmt_spec _ _ _ _ _ Hc Hvisit)
    as [_ [->|(s&pre&ch&post&cs&Hf&Hnew&->)]]; [done|].
  pose proof (VisitCompoundStmt_store _ _ _ _ _ Hc Hvisit) as [Hc' Hkeep].
  destruct Hf as (->&Hch&Hlen&_&_&Hbody&Hset&_).
  destruct ch as [|first ch]; [simpl in Hlen; lia|].
  destruct (chain_if _ _ _ first Hch) as (c&t&Hfirst); [by left|].
  exists (fresh (dom (ast p))), (body s), first.
  cbn [ast substitutions] in *.
  assert (ast p !! fresh (dom (ast p)) = None) as Hfresh.
  { apply not_elem_of_dom. apply is_fresh. }
  assert (is_Some
    (<[fresh (dom (ast p)) := CompoundStmt (body s)]> (heap s) !! first))
    as [node Hnode].
  { destruct (Hkeep _ _ Hfirst) as [->|(_&?&?&?&_&->)]; by eexists. }
  assert (∀ stmts, first ∈ stmts →
    first ∈ concat (map (nodes 1
      (<[fresh (dom (ast p)) := CompoundStmt (body s)]> (heap s))) stmts))
    as Hin.
  { intros stmts Hin. eapply nodes_in_concat; [done|].
    cbn [nodes]. rewrite Hnode. destruct node; by left. }
  split_and!; try done.
  - by rewrite lookup_insert_eq.
  - rewrite Hbody. apply sublist_app; [done|].
    apply sublist_app; [|done]. apply sublist_take.
  - rewrite Hbody. set_solver.
  - set_solver.
  - by exists c, t, None.
  - cbn [nodes]. rewrite lookup_insert_eq. right. apply Hin.
    rewrite Hbody. set_solver.
  - change (nodes 2 ?h compound)
      with (match h !! compound with
            | Some (IfStmt c t e) =>
                compound :: nodes 1 h t ++ from_option (nodes 1 h) [] e
            | Some (CompoundStmt l) => compound :: concat (map (nodes 1 h) l)
            | Some (OtherStmt k) => [compound]
            | None => []
            end).
    rewrite Hc'. right. apply Hin. set_solver.
Qed.
End Effects.

(** ** The examples, run *)

Lemma unsigned_example_fuses_witness :
  VisitCompoundStmt (Z3 := bv_solver 32) 0 (pass0 (block3 Unsigned))
    = Some (true, block3_fused) ∧
  denote 4 (block3 Unsigned) 0 = Some (SCompound three_ifs) ∧
  substitutions block3_fused !! 0 = Some 10 ∧
  denote 5 (ast block3_fused) 10 = Some (SCompound [ladder3]) ∧
  (∀ m, bv_eval 32 m (bv_mk_or [x_eq 0; x_eq 1; x_ge Unsigned 2]) = true) ∧
  (∀ m, bv_eval 32 m (CAnd (x_eq 0) (x_eq 1)) = false ∧
        bv_eval 32 m (CAnd (x_eq 0) (x_ge Unsigned 2)) = false ∧
        bv_eval 32 m (CAnd (x_eq 1) (x_ge Unsigned 2)) = false).
Proof. apply (unsigned_example_fuses 32). lia. Defined.

(** Over a signed 32-bit [x] the three conditions are not exhaustive
    ([x = -1] satisfies none of them), the disjunction is not proved and
    the block stays as it is. *)
Lemma signed_example_not_fused :
  VisitCompoundStmt (Z3 := bv_solver 32) 0 (pass0 (block3 Signed))
    = Some (true, pass0 (block3 Signed)) ∧
  bv_eval 32 ones (bv_mk_or [x_eq 0; x_eq 1; x_ge Signed 2]) = false ∧
  bv_Prove 32 (bv_mk_or [x_eq 0; x_eq 1; x_ge Signed 2]) = false.
Proof.
  assert (3 ≤ 32) as Hw by lia. split_and!.
  - by apply visit_block3_signed.
  - by apply incomplete_at_minus_1.
  - apply (bv_Prove_false 32 _ ones). by apply incomplete_at_minus_1.
Qed.

Lemma block3_fused_changed : block3_fused ≠ pass0 (block3 Unsigned).
Proof.
  intros H. apply (f_equal (λ p, substitutions p !! 0)) in H.
  by vm_compute in H.
Qed.

Lemma visit_block3_8 :
  VisitCompoundStmt (Z3 := bv_solver 8) 0 (pass0 (block3 Unsigned))
  = Some (true, block3_fused).
Proof. by vm_compute. Qed.

Lemma fused_block_is_else_if_ladder_witness :
  ∃ new pre arms post ladder,
    substitutions block3_fused
      = <[0 := new]> (substitutions (pass0 (block3 Unsigned))) ∧
    three_ifs = pre ++ (if_stmt <$> arms) ++ post ∧
    2 < length arms ∧
    fused_stmt arms = Some ladder ∧
    denote (4 + length arms) (ast block3_fused) new
      = Some (SCompound (pre ++ [ladder] ++ post)).
Proof.
  apply (fused_block_is_else_if_ladder (Z3 := bv_solver 8)
           0 (pass0 (block3 Unsigned)) block3_fused true 4 three_ifs).
  - by vm_compute.
  - intros H. apply (f_equal (λ p, substitutions p !! 0)) in H.
    by vm_compute in H.
  - apply (bool_decide_unpack _). by vm_compute.
  - by vm_compute.
Defined.

Lemma fusion_needs_three_and_complete_witness :
  (block3_fused ≠ pass0 (block3 Unsigned) →
   ∃ pre ch post cs,
     [1; 2; 3] = pre ++ ch ++ post ∧ 2 < length ch ∧
     Forall2 (λ stmt c,
                GetZ3Cond (Z3 := bv_solver 8) (block3 Unsigned) stmt = Some c ∧
                getElse (block3 Unsigned) stmt = Some None) ch cs ∧
     bv_Prove 8 (bv_mk_or cs) = true) ∧
  (length [1; 2; 3] ≤ 2 → block3_fused = pass0 (block3 Unsigned)).
Proof.
  apply (fusion_needs_three_and_complete (Z3 := bv_solver 8)
           0 (pass0 (block3 Unsigned)) block3_fused true [1; 2; 3]).
  - by vm_compute.
  - by vm_compute.
Defined.


(** The block at address 0 is still in the store after the visit and the
    ledger has not been applied, yet the tree below it is no longer the
    one the visit started from: its first two statements have grown
    [else] branches. *)
Lemma traversal_mutates_original_tree :
  VisitCompoundStmt (Z3 := bv_solver 8) 0 (pass0 (block3 Unsigned))
    = Some (true, block3_fused) ∧
  denote 5 (ast (pass0 (block3 Unsigned))) 0 = Some (SCompound three_ifs) ∧
  denote 5 (ast block3_fused) 0
    = Some (SCompound [ ladder3; SIf (x_eq 1) blockB (Some blockC);
                        SIf (x_ge Unsigned 2) blockC None ]) ∧
  denote 5 (ast block3_fused) 0 ≠ denote 5 (ast (pass0 (block3 Unsigned))) 0.
Proof. split_and!; by vm_compute. Qed.

Lemma visit_sets_else_in_place_witness :
  ast block3_fused !! 0 = Some (CompoundStmt [1; 2; 3]) ∧
  (∀ q node, ast (pass0 (block3 Unsigned)) !! q = Some node →
     ast block3_fused !! q = Some node ∨
     (q ∈ [1; 2; 3] ∧
      ∃ c t e, node = IfStmt c t None ∧
               ast block3_fused !! q = Some (IfStmt c t (Some e)))) ∧
  (block3_fused = pass0 (block3 Unsigned) ∨
   ∃ new, ast (pass0 (block3 Unsigned)) !! new = None ∧
          is_Some (ast block3_fused !! new) ∧
          substitutions block3_fused
            = <[0 := new]> (substitutions (pass0 (block3 Unsigned)))).
Proof.
  apply (visit_sets_else_in_place (Z3 := bv_solver 8)
           0 (pass0 (block3 Unsigned)) block3_fused true [1; 2; 3]).
  - by vm_compute.
  - by vm_compute.
Defined.

(** The replacement of block 0 is the block at 10; the [if] at address 1
    is a node of both.  And after the visits of the blocks of [nested],
    the inner block 4 is a key of the ledger and a node below the
    replacement of the outer block. *)
Lemma replacement_not_detached :
  (VisitCompoundStmt (Z3 := bv_solver 8) 0 (pass0 (block3 Unsigned))
     = Some (true, block3_fused) ∧
   substitutions block3_fused !! 0 = Some 10 ∧
   1 ∈ nodes 5 (ast block3_fused) 10 ∧
   1 ∈ nodes 5 (ast block3_fused) 0) ∧
  (VisitAll (Z3 := bv_solver 8) [4; 5; 6; 0] (pass0 nested)
     = Some nested_visited ∧
   substitutions nested_visited !! 4 = Some 17 ∧
   substitutions nested_visited !! 0 = Some 18 ∧
   4 ∈ nodes 6 (ast nested_visited) 18).
Proof.
  split; split_and!; try (by vm_compute);
    apply (bool_decide_unpack _); by vm_compute.
Qed.

Lemma replacement_shares_children_witness :
  ∃ new stmts first,
    substitutions block3_fused
      = <[0 := new]> (substitutions (pass0 (block3 Unsigned))) ∧
    ast (pass0 (block3 Unsigned)) !! new = None ∧
    ast block3_fused !! new = Some (CompoundStmt stmts) ∧
    stmts `sublist_of` [1; 2; 3] ∧
    first ∈ stmts ∧ first ∈ [1; 2; 3] ∧
    is_if (ast (pass0 (block3 Unsigned))) first ∧
    first ∈ nodes 2 (ast block3_fused) new ∧
    first ∈ nodes 2 (ast block3_fused) 0.
Proof.
  apply (replacement_shares_children (Z3 := bv_solver 8)
           0 (pass0 (block3 Unsigned)) block3_fused true [1; 2; 3]).
  - by vm_compute.
  - by vm_compute.
  - intros H. apply (f_equal (λ p, substitutions p !! 0)) in H.
    by vm_compute in H.
Defined.

(** The block holds two runs that can be fused.  One visit fuses the
    first and leaves the statements 4, 5 and 6 of the second as they
    were; they are fused when the replacement is visited in turn. *)
Lemma second_run_left_unfused :
  VisitCompoundStmt (Z3 := bv_solver 8) 0 (pass0 block6)
    = Some (true, block6_visited) ∧
  ast block6_visited !! 19 = Some (CompoundStmt [1; 4; 5; 6]) ∧
  ast block6_visited !! 4 = Some (IfStmt (x_eq 0) 10 None) ∧
  ast block6_visited !! 5 = Some (IfStmt (x_eq 1) 11 None) ∧
  ast block6_visited !! 6 = Some (IfStmt (x_ge Unsigned 2) 12 None) ∧
  VisitCompoundStmt (Z3 := bv_solver 8) 19 block6_visited
    = Some (true, block6_visited_twice) ∧
  ast block6_visited_twice !! 20 = Some (CompoundStmt [1; 4]).
Proof. split_and!; by vm_compute. Qed.

Lemma scan_ends_with_first_fusion_witness :
  VisitCompoundStmt (Z3 := bv_solver 8) 0 (pass0 block6)
  = Some (negb (stopped (pass0 block6)),
          {| ast := <[fresh (dom (heap block6_prefix_scanned)) :=
                        CompoundStmt (body block6_prefix_scanned ++ [4; 5; 6])]>
                      (heap block6_prefix_scanned);
             substitutions :=
               <[0 := fresh (dom (heap block6_prefix_scanned))]>
                 (substitutions (pass0 block6));
             stopped := stopped (pass0 block6) |}).
Proof.
  apply (scan_ends_with_first_fusion (Z3 := bv_solver 8)
           0 (pass0 block6) [1; 2; 3] [4; 5; 6] block6_prefix_scanned).
  - by vm_compute.
  - by vm_compute.
  - reflexivity.
Defined.

(** A record whose declaration has no IR type on file. *)
Lemma missing_type_is_fatal_witness :
  VisitRecordDecl 2 (renamer3 members_xyx)
    = Fatal "Type information not present for declaration" ∧
  ∀ order s', 2 ∈ order →
    VisitRecordDecls order (renamer3 members_xyx) ≠ Returned s'.
Proof. apply (missing_type_is_fatal 2 (renamer3 members_xyx)). by vm_compute. Defined.

Lemma rename_uses_ith_element_unguarded_witness :
  (length ["field0"; "field1"; "field2"] ≤ length ["x"; "y"; "x"] →
   ∃ names,
     VisitRecordDecl 1 (renamer3 members_xyx)
       = Returned (true,
                   {| decls := decls (renamer3 members_xyx);
                      types := types (renamer3 members_xyx);
                      record_fields :=
                        <[1 := names]>
                          (record_fields (renamer3 members_xyx)) |}) ∧
     length names = length ["field0"; "field1"; "field2"] ∧
     ∀ i old_name, ["field0"; "field1"; "field2"] !! i = Some old_name →
       ∃ name, ["x"; "y"; "x"] !! i = Some name ∧
               names !! i = Some (renamed ["x"; "y"; "x"] i name old_name)) ∧
  (length ["x"; "y"; "x"] < length ["field0"; "field1"; "field2"] →
   VisitRecordDecl 1 (renamer3 members_xyx) = Undefined OutOfBounds).
Proof.
  apply (rename_uses_ith_element_unguarded
           1 (renamer3 members_xyx) 7 members_xyx).
  - by vm_compute.
  - by vm_compute.
  - by vm_compute.
  - by vm_compute.
Defined.

(** The two sides of the precondition, run: three fields against three
    elements (one of them a repeated name), and against two. *)
Lemma rename_examples :
  (∃ s, VisitRecordDecl 1 (renamer3 members_xyx) = Returned (true, s) ∧
        record_fields s !! 1 = Some ["x"; "y"; "x_field2"]) ∧
  VisitRecordDecl 1 (renamer3 members_xy) = Undefined OutOfBounds.
Proof. split; [eexists; split|]; by vm_compute. Qed.

(** ** More about the visit of a block *)

Section VisitMore.
Context {Expr : Type} {Z3 : Solver Expr}.

Local Abbreviation store := (gmap nat (StmtNode Expr)).

(** X1.  The visit does not look at the stop flag before it has done its
    work: whatever the flag, the store and the ledger come out the same,
    the flag is left as it was and its negation is returned. *)
Theorem visit_ignores_stop_flag compound (p p' : Pass Expr) r b :
  VisitCompoundStmt compound p = Some (r, p') →
  r = negb (stopped p) ∧ stopped p' = stopped p ∧
  VisitCompoundStmt compound (with_stopped b p)
    = Some (negb b, with_stopped b p').
Proof.
  unfold VisitCompoundStmt. cbn [with_stopped ast substitutions stopped].
  destruct (ast p !! compound) as [[| children |]|]; try done.
  destruct (scan (ast p) children) as [s|]; [|done].
  cbn [mbind option_bind].
  destruct (done_something s); cbn; intros [= <- <-]; done.
Qed.

(** X2.  When a visit changes the pass, the block is [pre], then a run
    of at least three [if] statements without [else], then [post]; the
    block recorded for it holds the very statements of [pre], the first
    statement of the run and those of [post], in this order, and
    nothing else. *)
Theorem replacement_children compound (p p' : Pass Expr) r children :
  ast p !! compound = Some (CompoundStmt children) →
  VisitCompoundStmt compound p = Some (r, p') →
  p' ≠ p →
  ∃ new pre first rest post,
    children = pre ++ (first :: rest) ++ post ∧
    2 ≤ length rest ∧
    (∀ q, q ∈ first :: rest → getElse (ast p) q = Some None) ∧
    substitutions p' !! compound = Some new ∧
    ast p' !! new = Some (CompoundStmt (pre ++ first :: post)) ∧
    length (pre ++ first :: post) + length rest = length children.
Proof.
  intros Hc Hvisit Hne.
  destruct (VisitCompoundStmt_spec _ _ _ _ _ Hc Hvisit)
    as [_ [->|(s&pre&ch&post&cs&Hf&Hnew&->)]]; [done|].
  destruct Hf as (->&Hch&Hlen&_&_&Hbody&_).
  destruct ch as [|first rest]; [simpl in Hlen; lia|].
  exists (fresh (dom (ast p))), pre, first, rest, post.
  cbn [ast substitutions]. rewrite !lookup_insert_eq, Hbody.
  cbn [take]. rewrite take_0. cbn [app].
  split_and!; try done.
  - simpl in Hlen. lia.
  - intros q Hq. destruct (chain_if _ _ _ q Hch Hq) as (c&t&Hq').
    unfold getElse. by rewrite Hq'.
  - rewrite !length_app; simpl; rewrite ?length_app; simpl; lia.
Qed.

(** X3.  The visit only dereferences the block and its statements: when
    these are nodes of the store, it returns. *)
Theorem visit_returns compound (p : Pass Expr) children :
  ast p !! compound = Some (CompoundStmt children) →
  (∀ q, q ∈ children → is_Some (ast p !! q)) →
  ∃ p', VisitCompoundStmt compound p = Some (negb (stopped p), p').
Proof.
  intros Hc Halloc.
  destruct (VisitCompoundStmt_total compound p children Hc Halloc)
    as [[r p'] Hvisit].
  exists p'. destruct (VisitCompoundStmt_spec _ _ _ _ _ Hc Hvisit) as [-> _].
  done.
Qed.
End VisitMore.

(** ** The store after a fusion *)

Section Wiring.
Context {Expr : Type} {Z3 : Solver Expr}.

Local Abbreviation store := (gmap nat (StmtNode Expr)).
Implicit Types (h : store) (T : Stmt Expr).

(** The chaining loop leaves the last statement of the run alone. *)
Lemma link_back_unchanged front back rest a ca ta ea h h' :
  NoDup (a :: rest.*1.*1) → front ∉ rest.*1.*1 →
  last (rest.*1.*1) = Some back →
  h !! a = Some (IfStmt ca ta ea) →
  (∀ q c t, (q, c, t) ∈ rest → h !! q = Some (IfStmt c t None)) →
  link front back (rest.*1.*1) a h = Some h' →
  h' !! back = h !! back.
Proof.
  revert a ca ta ea h.
  induction rest as [|[[q cq] tq] rest IH];
    intros a ca ta ea h Hnd Hfront Hlast Ha Hrest Hlink; [done|].
  assert (∀ p c t, (p, c, t) ∈ (q, cq, tq) :: rest → p ∈ q :: rest.*1.*1)
    as Hptr.
  { intros p c t Hp. change (p ∈ ((q, cq, tq) :: rest).*1.*1).
    apply elem_of_ptrs. eauto. }
  pose proof (Hrest q cq tq ltac:(left)) as Hq.
  assert (back ∈ q :: rest.*1.*1) as Hback by by apply last_Some_elem_of.
  apply NoDup_cons in Hnd as [Ha_notin Hnd].
  assert (a ≠ back) as Hab by (intros ->; done).
  simpl in *.
  rewrite decide_False in Hlink by set_solver.
  destruct rest as [|[[q2 c2] t2] rest2].
  - simpl in *. injection Hlast as <-.
    rewrite decide_True in Hlink by done.
    unfold getThen, setElse in Hlink. rewrite Hq in Hlink. simpl in Hlink.
    rewrite Ha in Hlink. simpl in Hlink. injection Hlink as <-.
    by rewrite lookup_insert_ne.
  - assert (q ≠ back) as Hqb.
    { intros ->. apply NoDup_cons in Hnd as [Hnd _]. apply Hnd.
      by apply last_Some_elem_of. }
    rewrite decide_False in Hlink by done.
    unfold setElse in Hlink at 1. rewrite Ha in Hlink.
    cbn [mbind option_bind] in Hlink.
    set (h1 := <[a := IfStmt ca ta (Some q)]> h) in *.
    assert (∀ p c t, (p, c, t) ∈ (q, cq, tq) :: (q2, c2, t2) :: rest2 →
                     h1 !! p = Some (IfStmt c t None)) as Hrest1.
    { intros p c t Hp. unfold h1. rewrite lookup_insert_ne; [by apply Hrest|].
      intros <-. apply Ha_notin. by eapply Hptr. }
    rewrite (IH q cq tq None h1); try done.
    + unfold h1. by rewrite lookup_insert_ne.
    + set_solver.
    + apply Hrest1. by left.
    + intros p c t Hp. apply Hrest1. by right.
Qed.

Lemma else_after_cons x (l : list (ptr * Expr * ptr)) k :
  else_after (x :: l) (S k) = else_after l k.
Proof.
  unfold else_after. cbn [lookup list_lookup length].
  destruct (l !! S k) as [[[q c] t]|]; [|done].
  destruct (decide (S (S k) = length l)), (decide (S (S (S k)) = S (length l)));
    (done || lia).
Qed.

(** The wiring, statement by statement. *)
Lemma wired_lookup h (l : list (ptr * Expr * ptr)) :
  wired h l → 2 ≤ length l →
  (∀ b cb tb, last l = Some (b, cb, tb) → h !! b = Some (IfStmt cb tb None)) →
  ∀ k q c t, l !! k = Some (q, c, t) →
             h !! q = Some (IfStmt c t (else_after l k)).
Proof.
  induction l as [|[[a ca] ta] l IH]; intros Hw Hlen Hlast k q c t Hk;
    [simpl in Hlen; lia|].
  destruct l as [|[[b cb] tb] l2]; [simpl in Hlen; lia|].
  destruct l2 as [|y l2].
  - destruct k as [|[|k]]; simplify_eq/=.
    + done.
    + by apply Hlast.
  - destruct Hw as [Ha Hw]. destruct k as [|k]; [by simplify_eq/=|].
    rewrite else_after_cons. apply IH; [done|simpl; lia| |done].
    intros b' cb' tb' Hb'. apply Hlast. done.
Qed.

(** What the statements of a wired run read as. *)
Lemma wired_chained f h (l : list (ptr * Expr * ptr)) arms :
  wired h l →
  (∀ b cb tb, last l = Some (b, cb, tb) → h !! b = Some (IfStmt cb tb None)) →
  Forall2 (λ '(q, c, t) arm, arm.1 = c ∧ denote f h t = Some arm.2) l arms →
  ∃ Ts, chained arms = Some Ts ∧
        Forall2 (λ q T, denote (f + length l) h q = Some T) l.*1.*1 Ts.
Proof.
  revert arms. induction l as [|[[a ca] ta] l IH]; intros arms Hw Hlast Harms.
  { apply Forall2_nil_inv_l in Harms as ->. exists []. by split. }
  destruct l as [|[[b cb] tb] l2].
  - apply Forall2_cons_inv_l in Harms as ([c Ta]&arms'&[Hc HTa]&Hnil&->).
    apply Forall2_nil_inv_l in Hnil as ->. simpl in Hc; subst c.
    exists [if_stmt (ca, Ta)]. split; [done|].
    repeat constructor.
    replace (f + length [(a, ca, ta)]) with (S f) by (simpl; lia).
    cbn [denote fst]. rewrite (Hlast a ca ta) by done.
    by rewrite HTa.
  - destruct (wired_denote f h a ca ta ((b, cb, tb) :: l2) arms Hw)
      as (ladder&Hladder&Hd); [done..|].
    apply Forall2_cons_inv_l in Harms as (arm&arms'&Harm&Harms&->).
    assert (wired h ((b, cb, tb) :: l2)) as Hw'.
    { cbn [wired] in Hw. destruct l2; [done|]. apply Hw. }
    destruct (IH arms' Hw') as (Ts&HTs&Hds); [|done|].
    { intros b' cb' tb' Hb'. by apply Hlast. }
    exists (ladder :: Ts). split.
    + destruct arms' as [|arm2 arms']; [by apply Forall2_nil_inv_r in Harms|].
      cbn [chained] in *. rewrite Hladder. cbn [mbind option_bind].
      by rewrite HTs.
    + constructor; [done|].
      eapply Forall2_impl; [done|]. intros q T HT.
      simpl in HT. eapply denote_mono; [exact HT|]. simpl. lia.
Qed.

(** The store after a fusion of statements that are pairwise different. *)
Lemma fused_wired h children (s : Locals Expr) pre ch post cs new :
  fused h children s pre ch post cs → NoDup ch →
  new ∉ dom (heap s) →
  ∃ l : list (ptr * Expr * ptr),
    l.*1.*1 = ch ∧
    (∀ q c t, (q, c, t) ∈ l → h !! q = Some (IfStmt c t None)) ∧
    wired (<[new := CompoundStmt (body s)]> (heap s)) l ∧
    (∀ b cb tb, last l = Some (b, cb, tb) →
       <[new := CompoundStmt (body s)]> (heap s) !! b
       = Some (IfStmt cb tb None)) ∧
    (∀ q, q ∉ ch → q ≠ new →
       <[new := CompoundStmt (body s)]> (heap s) !! q = h !! q).
Proof.
  intros (->&Hch&Hlen&_&_&Hbody&Hset&front&back&Hfront&Hback&Hlink) Hnd Hnew.
  destruct (chain_triples _ _ _ Hch) as (l&<-&Hlook).
  exists l. split; [done|]. split; [done|].
  rewrite length_fmap, length_fmap in Hlen.
  assert (∀ q, q ∈ l.*1.*1 →
            <[new := CompoundStmt (body s)]> (heap s) !! q = heap s !! q)
    as Hold.
  { intros q (c&t&Hq)%elem_of_ptrs. apply lookup_insert_ne. intros <-.
    apply Hnew. rewrite (else_set_dom _ _ _ Hset).
    apply elem_of_dom. rewrite (Hlook _ _ _ Hq). by eexists. }
  destruct l as [|[[a ca] ta] rest]; [simpl in Hlen; lia|].
  cbn [fmap list_fmap head fst] in Hfront. injection Hfront as <-.
  change (NoDup (a :: rest.*1.*1)) in Hnd.
  assert (last (rest.*1.*1) = Some back) as Hback'.
  { destruct rest as [|x rest]; [simpl in Hlen; lia|]. by rewrite <-Hback. }
  cbn [fmap list_fmap link fst] in Hlink.
  rewrite decide_True in Hlink by done.
  assert (a ∉ rest.*1.*1) as Ha by by apply NoDup_cons in Hnd as [??].
  split_and!.
  - eapply (wired_agree (heap s)); [done|].
    apply (link_wired a back rest a ca ta None h (heap s)); try done.
    + apply Hlook. by left.
    + intros q c t Hq. apply Hlook. by right.
  - intros b cb tb Hb.
    assert ((b, cb, tb) ∈ rest) as Hin.
    { apply last_Some_elem_of. destruct rest; [simpl in Hlen; lia|done]. }
    assert (b = back) as ->.
    { assert (last (((a, ca, ta) :: rest).*1.*1) = Some b) as Hb'.
      { by rewrite !fmap_last, Hb. }
      rewrite Hback in Hb'. by injection Hb'. }
    rewrite Hold by (apply elem_of_ptrs; exists cb, tb; by right).
    rewrite (link_back_unchanged a back rest a ca ta None h (heap s));
      try done.
    + apply Hlook. by right.
    + apply Hlook. by left.
    + intros q c t Hq. apply Hlook. by right.
  - intros q Hq Hqnew. rewrite lookup_insert_ne by done.
    by apply (else_set_outside _ _ _ _ Hset).
Qed.

(** X4.  When the statements of the block are pairwise different, a
    fusion rewires the run in the store as follows: each statement of
    the run keeps its condition and its branch; the [else] of each
    statement but the last two is the next statement, the [else] of the
    one before the last is the branch of the last, and the last is left
    as it was.  No other node that was in the store changes. *)
Theorem fusion_wires_the_run compound (p p' : Pass Expr) r children :
  ast p !! compound = Some (CompoundStmt children) →
  VisitCompoundStmt compound p = Some (r, p') →
  p' ≠ p →
  NoDup children →
  ∃ new pre (l : list (ptr * Expr * ptr)) post,
    children = pre ++ l.*1.*1 ++ post ∧ 2 < length l ∧
    substitutions p' !! compound = Some new ∧
    (∀ k q c t, l !! k = Some (q, c, t) →
       ast p !! q = Some (IfStmt c t None) ∧
       ast p' !! q = Some (IfStmt c t (else_after l k))) ∧
    (∀ q, q ∉ l.*1.*1 → q ≠ new → ast p' !! q = ast p !! q).
Proof.
  intros Hc Hvisit Hne Hnd.
  destruct (VisitCompoundStmt_spec _ _ _ _ _ Hc Hvisit)
    as [_ [->|(s&pre&ch&post&cs&Hf&Hnew&->)]]; [done|].
  assert (children = pre ++ ch ++ post ∧ 2 < length ch) as [-> Hlen]
    by (split; apply Hf).
  apply NoDup_app in Hnd as (_&_&(Hndch&_&_)%NoDup_app).
  destruct (fused_wired _ _ _ _ _ _ _ _ Hf Hndch Hnew)
    as (l&<-&Hlook&Hwired&Hlast&Hframe).
  rewrite !length_fmap in Hlen.
  exists (fresh (dom (ast p))), pre, l, post. cbn [ast substitutions].
  split_and!; try done.
  - by rewrite lookup_insert_eq.
  - intros k q c t Hk. split.
    + apply Hlook. by eapply list_elem_of_lookup_2.
    + eapply wired_lookup; try done. lia.
Qed.


(** X6.  The block that was visited stays in the store with all its
    statements, and after a fusion it no longer reads as before: take
    a block that is a tree and reads as [pre], a run
    [if(c_1){t_1} ... if(c_n){t_n}] and [post].  After the visit it
    reads as [pre], then for each statement of the run but the last the
    ladder [if(c_k){t_k} else if ... else {t_n}] that starts there, then
    the last statement [if(c_n){t_n}] as it was, then [post]. *)
Theorem original_block_after_fusion
    compound (p p' : Pass Expr) r f TB :
  VisitCompoundStmt compound p = Some (r, p') →
  p' ≠ p →
  NoDup (nodes f (ast p) compound) →
  denote f (ast p) compound = Some (SCompound TB) →
  ∃ pre arms post Ts,
    TB = pre ++ (if_stmt <$> arms) ++ post ∧
    2 < length arms ∧
    chained arms = Some Ts ∧
    denote (f + length arms) (ast p') compound
      = Some (SCompound (pre ++ Ts ++ post)).
Proof.
  intros Hvisit Hne Hnd Hden.
  destruct (denote_compound _ _ _ _ Hden) as (f1&children&->&Hc&HTB).
  cbn [nodes] in Hnd. rewrite Hc in Hnd.
  apply NoDup_cons in Hnd as [_ Hnd].
  destruct (VisitCompoundStmt_spec _ _ _ _ _ Hc Hvisit)
    as [_ [->|(s&pre&ch&post&cs&Hf&Hnew&->)]]; [done|].
  clear Hne Hvisit Hden.
  assert (children = pre ++ ch ++ post ∧ 2 < length ch ∧
          chain (ast p) ch cs ∧ else_set ch (ast p) (heap s))
    as (->&Hlen&Hch&Hset) by (split_and!; apply Hf).
  set (h := ast p) in *. set (new := fresh (dom h)) in *.
  apply Forall2_app_inv_l in HTB as (Tpre&TB'&HTpre&HTB&->).
  apply Forall2_app_inv_l in HTB as (Tch&Tpost&HTch&HTpost&->).
  destruct (chain_triples _ _ _ Hch) as (l0&Hl0&Hlook0).
  assert (∃ f2, f1 = S f2) as (f2&->).
  { destruct f1; [|eauto]. destruct HTch; [simpl in Hlen; lia|done]. }
  assert (NoDup ch ∧
          (∀ q q' c t, q ∈ ch → (q', c, t) ∈ l0 → q ∉ nodes f2 h t) ∧
          (∀ p0 q, p0 ∈ pre ++ post → q ∈ ch → q ∉ nodes (S f2) h p0))
    as (Hndch&Hinner&Houter).
  { subst ch.
    destruct (NoDup_nodes_block _ _ _ _ _ Hnd) as [Hndch Houter].
    { intros q (c&t&Hq)%elem_of_ptrs. cbn [nodes].
      rewrite (Hlook0 _ _ _ Hq). by left. }
    destruct (NoDup_nodes_chain _ _ _ Hlook0 Hndch) as [Hndl Hinner].
    done. }
  destruct (fused_wired _ _ _ _ _ _ _ _ Hf Hndch Hnew)
    as (l&<-&Hlook&Hwired&Hlast&Hframe).
  destruct (chain_arms _ _ _ _ Hlook HTch) as (arms&->&Harms).
  assert (length arms = length l) as Hlarms.
  { apply Forall2_length in Harms. done. }
  rewrite !length_fmap in Hlen.
  cbn [ast].
  set (h' := <[new := CompoundStmt (body s)]> (heap s)) in *.
  assert (∀ k q T, denote k h q = Some T →
            (∀ x, x ∈ l.*1.*1 → x ∉ nodes k h q) →
            denote k h' q = Some T) as Hdframe.
  { intros k q T HT Hout. eapply denote_frame; [done|].
    intros x Hx. apply Hframe.
    - intros ?. by eapply Hout.
    - intros ->. apply nodes_allocated in Hx.
      apply Hnew. rewrite (else_set_dom _ _ _ Hset).
      by apply elem_of_dom. }
  assert (∀ q q' c t, q ∈ l.*1.*1 → (q', c, t) ∈ l → q ∉ nodes f2 h t)
    as Hinner'.
  { intros q q' c t Hq Hq'. pose proof (Hlook _ _ _ Hq') as Hq0.
    assert (q' ∈ l0.*1.*1) as (c0&t0&Hin0)%elem_of_ptrs.
    { rewrite Hl0. apply elem_of_ptrs. eauto. }
    pose proof (Hlook0 _ _ _ Hin0) as Hq1.
    assert (t0 = t) as -> by congruence.
    by eapply Hinner. }
  destruct (wired_chained f2 h' l arms Hwired Hlast) as (Ts&HTs&HdTs).
  { eapply Forall2_impl_elem; [done|]. intros [[q c] t] arm Hq [? Harm].
    split; [done|]. apply Hdframe; [done|].
    intros x Hx. by eapply Hinner'. }
  exists Tpre, arms, Tpost, Ts. split_and!; try done; [lia|].
  replace (S (S f2) + length arms) with (S (S f2 + length arms)) by lia.
  cbn [denote].
  assert (h' !! compound = Some (CompoundStmt (pre ++ l.*1.*1 ++ post)))
    as ->.
  { rewrite Hframe; [done| |].
    - intros (c&t&Hq)%elem_of_ptrs. pose proof (Hlook _ _ _ Hq). congruence.
    - intros ->. apply Hnew. rewrite (else_set_dom _ _ _ Hset).
      apply elem_of_dom. by eexists. }
  assert (mapM (denote (S f2 + length arms) h') (pre ++ l.*1.*1 ++ post)
          = Some (Tpre ++ Ts ++ Tpost)) as ->; [|done].
  apply mapM_Some. repeat apply Forall2_app.
  - eapply Forall2_impl_elem; [done|]. intros q T Hq HT.
    eapply denote_mono; [|by apply Nat.le_add_r].
    apply Hdframe; [done|]. intros x Hx. apply Houter; [set_solver|done].
  - eapply Forall2_impl; [done|]. intros q T HT. simpl in HT.
    eapply denote_mono; [exact HT|]. lia.
  - eapply Forall2_impl_elem; [done|]. intros q T Hq HT.
    eapply denote_mono; [|by apply Nat.le_add_r].
    apply Hdframe; [done|]. intros x Hx. apply Houter; [set_solver|done].
Qed.
End Wiring.
(** ** Statements that end a run *)

Section Separator.
Context {Expr : Type} {Z3 : Solver Expr}.

Local Abbreviation store := (gmap nat (StmtNode Expr)).

(** An iteration that does not fuse leaves [body] and the store alone,
    and adds at most one statement to [ifs]. *)
Lemma loop_body_unfused i (s s' : Locals Expr) :
  loop_body i s = Some s' → done_something s' = false →
  body s' = body s ∧ heap s' = heap s ∧
  length (ifs s') ≤ S (length (ifs s)).
Proof.
  unfold loop_body.
  destruct (body s !! i) as [stmt|]; [|done]. cbn [mbind option_bind].
  destruct (heap s !! stmt) as [[c t e|l|k]|]; cbn [mbind option_bind];
    try (intros [= <-] _; simpl; split_and!; try done; lia).
  destruct e; [intros [= <-] _; simpl; split_and!; try done; lia|].
  cbn [push_if conds].
  destruct (negb _); [intros [= <-] _; simpl; split_and!; try done; lia|].
  cbn [push_cond push_if ifs conds].
  destruct (_ || _).
  { intros [= <-] _; simpl; split_and!; try done.
    rewrite length_app. simpl. lia. }
  unfold fuse. cbn [ifs heap body conds].
  destruct (head _); [|done]. destruct (last _); [|done].
  cbn [mbind option_bind].
  destruct (link _ _ _ _ _); [|done]. cbn [mbind option_bind].
  by intros [= <-] [=].
Qed.

Lemma for_loop_done n i (s : Locals Expr) :
  done_something s = true → for_loop n i s = Some s.
Proof.
  intros Hd. destruct n; [done|]. simpl. by rewrite Hd, andb_false_r.
Qed.

(** A scan that has not fused by index [i + n] went through every one
    of its [n] iterations, and does the same with more statements after
    the ones it looked at. *)
Lemma for_loop_unfused n i (s s' : Locals Expr) tail :
  for_loop n i s = Some s' → done_something s' = false →
  i + n ≤ length (body s) →
  body s' = body s ∧ heap s' = heap s ∧
  for_loop n i (with_tail tail s) = Some (with_tail tail s').
Proof.
  revert i s. induction n as [|n IH]; intros i s Hloop Hdone Hlen.
  { simpl in *. by simplify_eq. }
  cbn [for_loop] in *.
  destruct (done_something s) eqn:Hd.
  { rewrite andb_false_r in Hloop. simplify_eq. congruence. }
  destruct (Nat.ltb_spec i (length (body s))) as [Hi|Hi]; [|lia].
  cbn [andb negb] in *.
  cbn [with_tail body done_something]. rewrite Hd.
  destruct (Nat.ltb_spec i (length (body s ++ tail))) as [_|Hi'];
    [|rewrite length_app in Hi'; lia].
  cbn [andb negb].
  destruct (loop_body i s) as [s1|] eqn:Hstep; [|done].
  rewrite (loop_body_with_tail i s s1) by done.
  cbn [mbind option_bind] in *.
  destruct (done_something s1) eqn:Hd1.
  { rewrite for_loop_done in Hloop by done. simplify_eq. congruence. }
  destruct (loop_body_unfused _ _ _ Hstep Hd1) as (Hb&Hh&_).
  destruct (IH (S i) s1 Hloop Hdone) as (Hb'&Hh'&Hloop');
    [rewrite Hb; lia|].
  split_and!; [congruence|congruence|done].
Qed.

(** The iterations after the first [n], when these have not fused. *)
Lemma for_loop_continue n m i (s s1 : Locals Expr) :
  for_loop n i s = Some s1 → done_something s1 = false →
  i + n ≤ length (body s) →
  for_loop (n + m) i s = for_loop m (i + n) s1.
Proof.
  revert i s. induction n as [|n IH]; intros i s Hloop Hdone Hlen.
  { simpl in *. simplify_eq. by rewrite Nat.add_0_r. }
  cbn [Nat.add for_loop] in *.
  destruct (done_something s) eqn:Hd.
  { rewrite andb_false_r in Hloop. simplify_eq. congruence. }
  destruct (Nat.ltb_spec i (length (body s))) as [Hi|Hi]; [|lia].
  cbn [andb negb] in *.
  destruct (loop_body i s) as [s'|] eqn:Hstep; [|done].
  cbn [mbind option_bind] in *.
  destruct (done_something s') eqn:Hd1.
  { rewrite for_loop_done in Hloop by done. simplify_eq. congruence. }
  destruct (loop_body_unfused _ _ _ Hstep Hd1) as (Hb&_&_).
  rewrite (IH (S i) s' Hloop Hdone) by (rewrite Hb; lia).
  f_equal. lia.
Qed.

Lemma erase_front {A} (front v : list A) k start i :
  k = length front →
  erase_at (k + start) (erase_range (k + start) (k + i) (front ++ v))
  = front ++ erase_at start (erase_range start i v).
Proof.
  intros ->. unfold erase_at, erase_range.
  rewrite take_app_add, drop_app_add, <-app_assoc.
  rewrite take_app_add.
  replace (S (length front + start)) with (length front + S start) by lia.
  rewrite drop_app_add. by rewrite app_assoc.
Qed.

(** An iteration at index [k + i] of a block with [k] statements in
    front is the iteration at [i] of the block without them, as long as
    the collected run does not reach into the front. *)
Lemma loop_body_with_front front k i (s : Locals Expr) :
  k = length front → length (ifs s) ≤ i →
  loop_body (k + i) (with_front front s)
  = with_front front <$> loop_body i s.
Proof.
  intros -> Hifs. unfold loop_body. cbn [with_front body heap].
  rewrite lookup_app_r by lia.
  replace (length front + i - length front) with i by lia.
  destruct (body s !! i) as [stmt|]; [|done]. cbn [mbind option_bind].
  destruct (heap s !! stmt) as [[c t e|l|k]|]; cbn [mbind option_bind];
    try done.
  destruct e; [done|].
  cbn [push_if conds].
  destruct (negb _); [done|].
  cbn [push_cond push_if ifs conds].
  destruct (_ || _); [done|].
  unfold fuse. cbn [push_cond push_if with_front ifs heap body conds].
  destruct (head (ifs s ++ [stmt])) as [a|]; [|by cbn].
  destruct (last (ifs s ++ [stmt])) as [b|]; [|by cbn].
  cbn [mbind option_bind].
  destruct (link a b (ifs s ++ [stmt]) a (heap s)) as [h'|]; [|by cbn].
  cbn [mbind option_bind fmap option_fmap option_map].
  unfold with_front. cbn [body ifs conds done_something heap].
  rewrite length_app. cbn [length].
  replace (length front + i - (length (ifs s) + 1 - 2))
    with (length front + (i - (length (ifs s) + 1 - 2))) by lia.
  by rewrite erase_front.
Qed.

Lemma for_loop_with_front front k n i (s : Locals Expr) :
  k = length front → length (ifs s) ≤ i →
  for_loop n (k + i) (with_front front s)
  = with_front front <$> for_loop n i s.
Proof.
  intros Hk. revert i s. induction n as [|n IH]; intros i s Hifs; [done|].
  cbn [for_loop]. cbn [with_front body done_something].
  rewrite length_app, <-Hk.
  replace (k + i <? k + length (body s)) with (i <? length (body s)).
  2:{ destruct (Nat.ltb_spec i (length (body s)));
      destruct (Nat.ltb_spec (k + i) (k + length (body s))); done || lia. }
  destruct ((i <? length (body s)) && negb (done_something s)); [|done].
  change (loop_body (k + i) _) with (loop_body (k + i) (with_front front s)).
  rewrite loop_body_with_front by done.
  destruct (loop_body i s) as [s'|] eqn:Hstep; [|done].
  cbn [fmap option_fmap option_map mbind option_bind].
  destruct (done_something s') eqn:Hd.
  { rewrite (for_loop_done n (S i) s') by done.
    by rewrite for_loop_done. }
  destruct (loop_body_unfused _ _ _ Hstep Hd) as (_&_&Hl).
  replace (S (k + i)) with (k + S i) by lia.
  apply IH. lia.
Qed.

(** The iteration at a separator empties the collected run. *)
Lemma loop_body_separator i (s : Locals Expr) sep :
  body s !! i = Some sep → separator (heap s) sep →
  loop_body i s = Some (ResetChain s).
Proof.
  intros Hi Hsep. unfold loop_body, separator in *. rewrite Hi.
  cbn [mbind option_bind].
  destruct (heap s !! sep) as [[c t [e|]|l|k]|]; done.
Qed.

(** X12.  A statement that is not an [if], or an [if] that has an
    [else], cuts the block in two for the scan: when the statements
    before it give no fusion, the scan of the whole block is the scan
    of the statements after it, with the statements up to it left in
    front as they are.  No run is collected across such a
    statement. *)
Theorem scan_restarts_after_separator (h : store) front sep rest s0 :
  scan h front = Some s0 →
  done_something s0 = false →
  separator h sep →
  scan h (front ++ sep :: rest)
  = with_front (front ++ [sep]) <$> scan h rest.
Proof.
  intros Hscan Hdone Hsep. unfold scan in *.
  destruct (for_loop_unfused _ _ _ _ (sep :: rest) Hscan Hdone)
    as (Hb&Hh&Hloop); [done|].
  simpl in Hb, Hh.
  rewrite length_app.
  rewrite (for_loop_continue _ _ 0 _ _ Hloop Hdone)
    by (cbn [with_tail body]; rewrite length_app; lia).
  cbn [length for_loop Nat.add with_tail body done_something].
  rewrite Hdone, Hb, length_app. cbn [length].
  destruct (Nat.ltb_spec (length front) (length front + S (length rest)));
    [|lia].
  cbn [andb negb].
  rewrite (loop_body_separator _ _ sep).
  2:{ cbn [with_tail body]. rewrite Hb, lookup_app_r by done.
      by rewrite Nat.sub_diag. }
  2:{ cbn [with_tail heap]. by rewrite Hh. }
  cbn [mbind option_bind].
  replace (S (length front)) with (length (front ++ [sep]) + 0)
    by (rewrite length_app; simpl; lia).
  rewrite <-(for_loop_with_front (front ++ [sep])
               (length (front ++ [sep])) (length rest) 0);
    [|done|simpl; lia].
  f_equal. unfold ResetChain, with_front, with_tail.
  cbn [body ifs conds done_something heap].
  by rewrite Hdone, Hh, Hb, <-app_assoc.
Qed.
End Separator.
(** ** More on the field renamer *)

Section FieldRenamerMore.
Implicit Types (s : Renamer) (di_fields decl_fields : list string).

Lemma length_append (a b : string) :
  String.length (a +:+ b) = String.length a + String.length b.
Proof. induction a as [|x a IH]; simpl; [done|]. by rewrite IH. Qed.

Lemma suffixed_ne (name old_name : string) :
  name +:+ "_" +:+ old_name ≠ name.
Proof.
  intros H%(f_equal String.length).
  rewrite !length_append in H. simpl in H. lia.
Qed.

(** The loop never changes the number of fields. *)
Lemma rename_loop_length n i di_fields seen_names decl_fields names :
  rename_loop n i di_fields seen_names decl_fields = Returned names →
  length names = length decl_fields.
Proof.
  revert i seen_names decl_fields.
  induction n as [|n IH]; intros i seen fs; simpl; [by intros [= ->]|].
  destruct (i <? length fs); [|by intros [= ->]].
  destruct (fs !! i) as [old|]; [|done].
  destruct (di_fields !! i) as [name|]; [|done].
  destruct (decide (name ∈ seen)); intros ->%IH; by rewrite length_insert.
Qed.

(** The visit of a record with enough debug-info elements. *)
Lemma VisitRecordDecl_in_bounds decl s type elements di_fields decl_fields :
  decls s !! decl = Some type →
  types s !! type = Some (DICompositeType elements) →
  mapM derived_name elements = Some di_fields →
  record_fields s !! decl = Some decl_fields →
  length decl_fields ≤ length di_fields →
  ∃ names,
    VisitRecordDecl decl s
      = Returned (true,
                  {| decls := decls s; types := types s;
                     record_fields :=
                       <[decl := names]> (record_fields s) |}) ∧
    length names = length decl_fields ∧
    ∀ i old_name, decl_fields !! i = Some old_name →
      ∃ name, di_fields !! i = Some name ∧
              names !! i = Some (renamed di_fields i name old_name).
Proof.
  intros Hdecl Htype Hcast Hfields Hlen. unfold VisitRecordDecl.
  rewrite Hdecl, Htype, Hfields, Hcast.
  destruct (rename_loop_in_bounds (length decl_fields) 0 di_fields ∅
              decl_fields) as (names&->&Hl&_&Hnames); try done.
  exists names. split_and!; try done.
  intros i old. apply Hnames. lia.
Qed.

(** With distinct element names no field is suffixed. *)
Lemma renamed_NoDup di_fields i name old_name :
  NoDup di_fields → di_fields !! i = Some name →
  renamed di_fields i name old_name = name.
Proof.
  intros Hnd Hi. unfold renamed. rewrite decide_False; [done|].
  intros (j&Hj&Hlt)%elem_of_take.
  pose proof (NoDup_lookup _ _ _ _ Hnd Hi Hj). lia.
Qed.

Lemma names_NoDup di_fields decl_fields names :
  NoDup di_fields →
  length decl_fields ≤ length di_fields →
  length names = length decl_fields →
  (∀ i old_name, decl_fields !! i = Some old_name →
     ∃ name, di_fields !! i = Some name ∧
             names !! i = Some (renamed di_fields i name old_name)) →
  names = take (length decl_fields) di_fields.
Proof.
  intros Hnd Hlen Hl Hnames. apply list_eq. intros i.
  destruct (decide (i < length decl_fields)) as [Hi|Hi].
  - destruct (lookup_lt_is_Some_2 decl_fields i) as [old Hold]; [done|].
    destruct (Hnames _ _ Hold) as (name&Hname&->).
    rewrite lookup_take_lt by done.
    by rewrite (renamed_NoDup _ _ _ _ Hnd Hname).
  - rewrite lookup_take_ge by lia. apply lookup_ge_None. lia.
Qed.


(** X8.  When the debug-info elements have distinct names, and there
    are at least as many of them as fields, the fields are named
    exactly after the first elements: nothing of the old names is left.
    Visiting the record a second time then changes nothing. *)
Theorem distinct_names_replace_old
    decl s type elements di_fields decl_fields :
  decls s !! decl = Some type →
  types s !! type = Some (DICompositeType elements) →
  mapM derived_name elements = Some di_fields →
  record_fields s !! decl = Some decl_fields →
  length decl_fields ≤ length di_fields →
  NoDup di_fields →
  ∃ s',
    VisitRecordDecl decl s = Returned (true, s') ∧
    record_fields s' !! decl
      = Some (take (length decl_fields) di_fields) ∧
    VisitRecordDecl decl s' = Returned (true, s').
Proof.
  intros Hdecl Htype Hcast Hfields Hlen Hnd.
  destruct (VisitRecordDecl_in_bounds _ _ _ _ _ _
              Hdecl Htype Hcast Hfields Hlen) as (names&Hvisit&Hl&Hnames).
  apply names_NoDup in Hnames as ->; [|done..].
  eexists. split; [done|]. split; [by simpl; rewrite lookup_insert_eq|].
  set (names := take (length decl_fields) di_fields) in *.
  destruct (VisitRecordDecl_in_bounds decl
              {| decls := decls s; types := types s;
                 record_fields := <[decl := names]> (record_fields s) |}
              type elements di_fields names)
    as (names'&->&Hl'&Hnames'); simpl; try done.
  { by rewrite lookup_insert_eq. } { lia. }
  apply names_NoDup in Hnames'; [|done|lia|done].
  rewrite Hnames', Hl. fold names. by rewrite insert_insert_eq.
Qed.

(** X9.  The renamer is not idempotent when names clash: a field whose
    element name was already taken by an earlier element is named
    [name_old]; a second visit of the same record finds the same clash
    and names it [name_name_old], with the name it got from the first
    visit as the old name.  All other fields keep the name of the first
    visit. *)
Theorem second_visit_suffixes_again
    decl s type elements di_fields decl_fields :
  decls s !! decl = Some type →
  types s !! type = Some (DICompositeType elements) →
  mapM derived_name elements = Some di_fields →
  record_fields s !! decl = Some decl_fields →
  length decl_fields ≤ length di_fields →
  ∃ s' s'' names names',
    VisitRecordDecl decl s = Returned (true, s') ∧
    VisitRecordDecl decl s' = Returned (true, s'') ∧
    record_fields s' !! decl = Some names ∧
    record_fields s'' !! decl = Some names' ∧
    ∀ i name old_name,
      di_fields !! i = Some name → decl_fields !! i = Some old_name →
      if decide (name ∈ take i di_fields) then
        names !! i = Some (name +:+ "_" +:+ old_name) ∧
        names' !! i = Some (name +:+ "_" +:+ name +:+ "_" +:+ old_name) ∧
        names' !! i ≠ names !! i
      else
        names !! i = Some name ∧ names' !! i = Some name.
Proof.
  intros Hdecl Htype Hcast Hfields Hlen.
  destruct (VisitRecordDecl_in_bounds _ _ _ _ _ _
              Hdecl Htype Hcast Hfields Hlen) as (names&Hvisit&Hl&Hnames).
  destruct (VisitRecordDecl_in_bounds decl
              {| decls := decls s; types := types s;
                 record_fields := <[decl := names]> (record_fields s) |}
              type elements di_fields names)
    as (names'&Hvisit'&Hl'&Hnames'); simpl; try done.
  { by rewrite lookup_insert_eq. } { lia. }
  eexists _, _, names, names'. split; [done|]. split; [done|].
  simpl. rewrite !lookup_insert_eq. split; [done|]. split; [done|].
  intros i name old Hname Hold.
  destruct (Hnames _ _ Hold) as (name1&Hname1&Hi).
  destruct (Hnames' _ _ Hi) as (name2&Hname2&Hi').
  assert (name1 = name) as -> by congruence.
  assert (name2 = name) as -> by congruence.
  rewrite Hi', Hi. unfold renamed.
  destruct (decide (name ∈ take i di_fields)); [|done].
  split; [done|]. split; [done|].
  intros [= H%(f_equal String.length)].
  rewrite !length_append in H. simpl in H. lia.
Qed.

(** X10.  Every element name that is used for a record (it is the name
    of one of the first [n] elements, for a record of [n] fields) is the
    name of a field after the visit, without suffix: the field at the
    first element of that name gets it. *)
Theorem every_element_name_is_used
    decl s type elements di_fields decl_fields name :
  decls s !! decl = Some type →
  types s !! type = Some (DICompositeType elements) →
  mapM derived_name elements = Some di_fields →
  record_fields s !! decl = Some decl_fields →
  length decl_fields ≤ length di_fields →
  name ∈ take (length decl_fields) di_fields →
  ∃ s' names,
    VisitRecordDecl decl s = Returned (true, s') ∧
    record_fields s' !! decl = Some names ∧
    name ∈ names.
Proof.
  intros Hdecl Htype Hcast Hfields Hlen Hin.
  destruct (VisitRecordDecl_in_bounds _ _ _ _ _ _
              Hdecl Htype Hcast Hfields Hlen) as (names&Hvisit&Hl&Hnames).
  eexists _, names. split; [done|].
  split; [by simpl; rewrite lookup_insert_eq|].
  apply elem_of_take in Hin as (k&Hk&Hlt).
  revert Hk Hlt. induction (lt_wf k) as [k _ IH]. intros Hk Hlt.
  destruct (decide (name ∈ take k di_fields)) as [Hseen|Hseen].
  - apply elem_of_take in Hseen as (j&Hj&Hjk). apply (IH j); [done..|lia].
  - destruct (lookup_lt_is_Some_2 decl_fields k) as [old Hold]; [done|].
    destruct (Hnames _ _ Hold) as (name'&Hname'&Hi).
    assert (name' = name) as -> by congruence.
    unfold renamed in Hi. rewrite decide_False in Hi by done.
    by eapply list_elem_of_lookup_2.
Qed.

(** X11.  The suffix does not make the names of a record distinct: when
    an element is called [name_old] (and is the first of that name), and
    a later field with the old name [old] gets the suffixed name
    [name_old] because its element name [name] was already seen, the
    two fields end up with the same name. *)
Theorem suffixed_name_can_clash
    decl s type elements di_fields decl_fields i j name old_name :
  decls s !! decl = Some type →
  types s !! type = Some (DICompositeType elements) →
  mapM derived_name elements = Some di_fields →
  record_fields s !! decl = Some decl_fields →
  length decl_fields ≤ length di_fields →
  i < length decl_fields →
  di_fields !! i = Some (name +:+ "_" +:+ old_name) →
  name +:+ "_" +:+ old_name ∉ take i di_fields →
  decl_fields !! j = Some old_name →
  di_fields !! j = Some name →
  name ∈ take j di_fields →
  ∃ s' names,
    VisitRecordDecl decl s = Returned (true, s') ∧
    record_fields s' !! decl = Some names ∧
    i ≠ j ∧
    names !! i = Some (name +:+ "_" +:+ old_name) ∧
    names !! j = Some (name +:+ "_" +:+ old_name) ∧
    ¬ NoDup names.
Proof.
  intros Hdecl Htype Hcast Hfields Hlen Hi Hdi Hfirst Hold Hdj Hseen.
  destruct (VisitRecordDecl_in_bounds _ _ _ _ _ _
              Hdecl Htype Hcast Hfields Hlen) as (names&Hvisit&Hl&Hnames).
  eexists _, names. split; [done|].
  split; [by simpl; rewrite lookup_insert_eq|].
  assert (i ≠ j) as Hne.
  { intros ->. rewrite Hdi in Hdj. injection Hdj as Hdj.
    by apply suffixed_ne in Hdj. }
  destruct (lookup_lt_is_Some_2 decl_fields i) as [old' Hold']; [done|].
  destruct (Hnames _ _ Hold') as (n1&Hn1&Hni).
  destruct (Hnames _ _ Hold) as (n2&Hn2&Hnj).
  assert (n1 = name +:+ "_" +:+ old_name) as -> by congruence.
  assert (n2 = name) as -> by congruence.
  unfold renamed in Hni, Hnj.
  rewrite decide_False in Hni by done. rewrite decide_True in Hnj by done.
  split_and!; try done.
  intros Hnd. by pose proof (NoDup_lookup _ _ _ _ Hnd Hni Hnj).
Qed.
End FieldRenamerMore.
(** ** The type printer *)

Section TypePrinter.
Implicit Types (OS w : string) (ws : list string).

Lemma append_nil_r OS : OS +:+ "" = OS.
Proof.
  induction OS as [|a OS IH]; [done|].
  change (String a OS +:+ "") with (String a (OS +:+ "")). by f_equal.
Qed.

Lemma append_assoc (a b c : string) : (a +:+ b) +:+ c = a +:+ b +:+ c.
Proof.
  induction a as [|x a IH]; [done|].
  change (String x ((a +:+ b) +:+ c) = String x (a +:+ b +:+ c)).
  by f_equal.
Qed.

(** One more word after a list of words. *)
Lemma concat_snoc ws w OS (addSpace : bool) :
  addSpace = bool_decide (ws ≠ []) →
  (if addSpace then (OS +:+ String.concat " " ws) +:+ " "
   else OS +:+ String.concat " " ws) +:+ w
  = OS +:+ String.concat " " (ws ++ [w]).
Proof.
  intros ->. induction ws as [|w1 ws IH] in OS |- *.
  { simpl. by rewrite append_nil_r. }
  rewrite bool_decide_true by done.
  destruct ws as [|w2 ws].
  { simpl. by rewrite !append_assoc. }
  specialize (IH (OS +:+ w1 +:+ " ")).
  rewrite bool_decide_true in IH by done.
  change (String.concat " " (w1 :: w2 :: ws))
    with (w1 +:+ " " +:+ String.concat " " (w2 :: ws)).
  change (String.concat " " ((w1 :: w2 :: ws) ++ [w]))
    with (w1 +:+ " " +:+ String.concat " " ((w2 :: ws) ++ [w])).
  rewrite !append_assoc in IH. rewrite !append_assoc. exact IH.
Qed.

Lemma AppendTypeQualList_words OS TypeQuals HasRestrictKeyword :
  AppendTypeQualList OS TypeQuals HasRestrictKeyword
  = OS +:+ String.concat " " (cvr_words TypeQuals HasRestrictKeyword).
Proof.
  unfold AppendTypeQualList, cvr_words.
  destruct (nonzero (Z.land TypeQuals Qualifiers.Const));
    destruct (nonzero (Z.land TypeQuals Qualifiers.Volatile));
    destruct (nonzero (Z.land TypeQuals Qualifiers.Restrict));
    destruct HasRestrictKeyword;
    cbn [app String.concat]; by rewrite ?append_assoc, ?append_nil_r.
Qed.

(** X13.  [AppendTypeQualList] appends to the stream the keywords of
    the bits that are set, in the order [const], [volatile],
    [restrict], with one space between two keywords and none before the
    first or after the last; it appends nothing when none of the three
    bits is set, whatever other bits are. *)
Theorem AppendTypeQualList_joins OS TypeQuals HasRestrictKeyword :
  AppendTypeQualList OS TypeQuals HasRestrictKeyword
  = OS +:+ String.concat " " (cvr_words TypeQuals HasRestrictKeyword) ∧
  (Z.land TypeQuals Qualifiers.CVRMask = 0%Z →
   AppendTypeQualList OS TypeQuals HasRestrictKeyword = OS).
Proof.
  split; [apply AppendTypeQualList_words|].
  intros Hmask. rewrite AppendTypeQualList_words.
  assert (∀ b, Z.land b Qualifiers.CVRMask = b →
            Z.land TypeQuals b = 0%Z) as Hbit.
  { intros b Hb. rewrite <-Hb, Z.land_assoc, (Z.land_comm _ b).
    rewrite <-Z.land_assoc, Hmask. apply Z.land_0_r. }
  unfold cvr_words.
  rewrite !Hbit by done. simpl. apply append_nil_r.
Qed.

Lemma concat_app_cons ws w l :
  ws ≠ [] →
  String.concat " " (ws ++ w :: l)
  = String.concat " " ws +:+ " " +:+ String.concat " " (w :: l).
Proof.
  induction ws as [|w1 ws IH]; [done|]. intros _.
  destruct ws as [|w2 ws]; [done|].
  change (String.concat " " ((w1 :: w2 :: ws) ++ w :: l))
    with (w1 +:+ " " +:+ String.concat " " ((w2 :: ws) ++ w :: l)).
  rewrite IH by done.
  change (String.concat " " (w1 :: w2 :: ws))
    with (w1 +:+ " " +:+ String.concat " " (w2 :: ws)).
  by rewrite !append_assoc.
Qed.

(** The bits [const], [volatile] and [restrict] are all of [CVRMask]. *)
Lemma cvr_words_nil TypeQuals HasRestrictKeyword :
  Z.land TypeQuals Qualifiers.CVRMask = TypeQuals →
  cvr_words TypeQuals HasRestrictKeyword = [] → TypeQuals = 0%Z.
Proof.
  intros Hmask Hnil. unfold cvr_words, nonzero in Hnil.
  destruct (Z.eqb_spec (Z.land TypeQuals Qualifiers.Const) 0) as [H1|];
    [|done].
  destruct (Z.eqb_spec (Z.land TypeQuals Qualifiers.Volatile) 0) as [H4|];
    [|done].
  destruct (Z.eqb_spec (Z.land TypeQuals Qualifiers.Restrict) 0) as [H2|];
    [|done].
  rewrite <-Hmask.
  change Qualifiers.CVRMask
    with (Z.lor Qualifiers.Const
            (Z.lor Qualifiers.Volatile Qualifiers.Restrict)).
  by rewrite !Z.land_lor_distr_r, H1, H2, H4.
Qed.

(** X14.  For a set of qualifiers whose [const]/[volatile]/[restrict]
    bits lie within [CVRMask] (as [getCVRQualifiers] of clang returns
    them), [PrintQualifiers] appends the words of the qualifiers with
    one space between two words.  It puts nothing in front of the first
    word, whatever the stream holds, and it does append a final space:
    when [appendSpaceIfNonEmpty] is set and at least one word was
    written. *)
Theorem PrintQualifiers_joins Q OS Policy appendSpaceIfNonEmpty :
  Z.land (Qualifiers.getCVRQualifiers Q) Qualifiers.CVRMask
  = Qualifiers.getCVRQualifiers Q →
  PrintQualifiers Q OS Policy appendSpaceIfNonEmpty
  = OS +:+ String.concat " " (qualifier_words Q Policy)
    +:+ (if appendSpaceIfNonEmpty
            && bool_decide (qualifier_words Q Policy ≠ [])
         then " " else "").
Proof.
  destruct Q as [quals unaligned AS gc lifetime].
  destruct Policy as [restrict suppress].
  unfold PrintQualifiers, qualifier_words.
  cbn [Qualifiers.getCVRQualifiers Qualifiers.hasUnaligned
       Qualifiers.getAddressSpace Qualifiers.getObjCGCAttr
       Qualifiers.getObjCLifetime Restrict SuppressStrongLifetime].
  intros Hmask. rewrite AppendTypeQualList_words.
  pose proof (cvr_words_nil quals restrict Hmask) as Hnil.
  assert (quals = 0%Z → cvr_words quals restrict = []) as Hzero
    by (by intros ->).
  generalize dependent (cvr_words quals restrict). intros ws0 Hnil Hzero.
  generalize (getAddrSpaceAsString AS) (isTargetAddressSpace AS).
  intros ASStr target.
  unfold nonzero. destruct (Z.eqb_spec quals 0) as [Hq|Hq].
  - rewrite (Hzero Hq). clear.
    destruct unaligned, (bool_decide (ASStr = "")), target, gc, lifetime,
      suppress, appendSpaceIfNonEmpty;
      cbv beta iota zeta; cbn [negb andb app String.concat];
      rewrite ?bool_decide_true, ?bool_decide_false by naive_solver;
      cbv beta iota zeta;
      by rewrite ?append_assoc, ?append_nil_r.
  - assert (ws0 ≠ []) as Hws by (intros ?; by apply Hq, Hnil).
    clear Hnil Hzero Hmask Hq.
    assert (∀ l, bool_decide (ws0 ++ l ≠ []) = true) as Hne.
    { intros l. apply bool_decide_eq_true. by destruct ws0. }
    destruct unaligned, (bool_decide (ASStr = "")), target, gc, lifetime,
      suppress, appendSpaceIfNonEmpty;
      cbv beta iota zeta; cbn [negb andb app];
      rewrite ?Hne, ?app_nil_r, ?concat_app_cons by done;
      cbv beta iota zeta; cbn [String.concat];
      by rewrite ?append_assoc, ?append_nil_r.
Qed.

(** X15.  [canPrefixQualifiers] always leaves [false] in
    [NeedARCStrongQualifier]: the value [true] that it stores for a
    variable-length or dependent-sized array is overwritten when the
    function is entered again for the element type.  Its decision does
    not depend on the value the reference held before the call. *)
Theorem canPrefixQualifiers_never_needs_strong T NeedARCStrongQualifier :
  canPrefixQualifiers T NeedARCStrongQualifier
  = ((canPrefixQualifiers T false).1, false).
Proof.
  revert T NeedARCStrongQualifier. fix IH 1. intros T b.
  destruct T as [[U|]|U|k element| | |c]; try reflexivity.
  - destruct U as [| |k element| | |c]; try reflexivity.
    + destruct k; simpl; try exact (IH element false);
        by rewrite (IH element true).
    + by destruct c.
  - destruct U as [| |k element| | |c]; try reflexivity.
    + destruct k; simpl; try exact (IH element false);
        by rewrite (IH element true).
    + by destruct c.
  - destruct k; simpl; try exact (IH element false);
      by rewrite (IH element true).
  - by destruct c.
Qed.
End TypePrinter.

(** ** The further properties, on the examples *)

Lemma visit_ignores_stop_flag_witness :
  true = negb (stopped (pass0 (block3 Unsigned))) ∧
  stopped block3_fused = stopped (pass0 (block3 Unsigned)) ∧
  VisitCompoundStmt (Z3 := bv_solver 8) 0
    (with_stopped true (pass0 (block3 Unsigned)))
  = Some (negb true, with_stopped true block3_fused).
Proof.
  apply (visit_ignores_stop_flag (Z3 := bv_solver 8)
           0 (pass0 (block3 Unsigned)) block3_fused true true).
  by vm_compute.
Defined.

Lemma replacement_children_witness :
  ∃ new pre first rest post,
    [1; 2; 3] = pre ++ (first :: rest) ++ post ∧
    2 ≤ length rest ∧
    (∀ q, q ∈ first :: rest → getElse (block3 Unsigned) q = Some None) ∧
    substitutions block3_fused !! 0 = Some new ∧
    ast block3_fused !! new = Some (CompoundStmt (pre ++ first :: post)) ∧
    length (pre ++ first :: post) + length rest = length [1; 2; 3].
Proof.
  apply (replacement_children (Z3 := bv_solver 8)
           0 (pass0 (block3 Unsigned)) block3_fused true [1; 2; 3]).
  - by vm_compute.
  - by vm_compute.
  - intros H. apply (f_equal (λ p, substitutions p !! 0)) in H.
    by vm_compute in H.
Defined.

Lemma visit_returns_witness :
  ∃ p', VisitCompoundStmt (Z3 := bv_solver 8) 0 (pass0 block2)
        = Some (negb (stopped (pass0 block2)), p').
Proof.
  apply (visit_returns (Z3 := bv_solver 8) 0 (pass0 block2) [1; 2]).
  - by vm_compute.
  - intros q Hq. apply (bool_decide_unpack _).
    rewrite !elem_of_cons, elem_of_nil in Hq.
    destruct Hq as [->|[->|[]]]; by vm_compute.
Defined.

Lemma fusion_wires_the_run_witness :
  ∃ new pre (l : list (nat * Cond * nat)) post,
    [1; 2; 3] = pre ++ l.*1.*1 ++ post ∧ 2 < length l ∧
    substitutions block3_fused !! 0 = Some new ∧
    (∀ k q c t, l !! k = Some (q, c, t) →
       block3 Unsigned !! q = Some (IfStmt c t None) ∧
       ast block3_fused !! q = Some (IfStmt c t (else_after l k))) ∧
    (∀ q, q ∉ l.*1.*1 → q ≠ new →
       ast block3_fused !! q = block3 Unsigned !! q).
Proof.
  apply (fusion_wires_the_run (Z3 := bv_solver 8)
           0 (pass0 (block3 Unsigned)) block3_fused true [1; 2; 3]).
  - by vm_compute.
  - by vm_compute.
  - intros H. apply (f_equal (λ p, substitutions p !! 0)) in H.
    by vm_compute in H.
  - apply (bool_decide_unpack _). by vm_compute.
Defined.


Lemma original_block_after_fusion_witness :
  ∃ pre arms post Ts,
    three_ifs = pre ++ (if_stmt <$> arms) ++ post ∧
    2 < length arms ∧
    chained arms = Some Ts ∧
    denote (4 + length arms) (ast block3_fused) 0
      = Some (SCompound (pre ++ Ts ++ post)).
Proof.
  apply (original_block_after_fusion (Z3 := bv_solver 8)
           0 (pass0 (block3 Unsigned)) block3_fused true 4 three_ifs).
  - by vm_compute.
  - intros H. apply (f_equal (λ p, substitutions p !! 0)) in H.
    by vm_compute in H.
  - apply (bool_decide_unpack _). by vm_compute.
  - by vm_compute.
Defined.

Lemma scan_restarts_after_separator_witness :
  scan (Z3 := bv_solver 8) block6 ([1; 2] ++ 7 :: [4; 5; 6])
  = with_front ([1; 2] ++ [7]) <$> scan (Z3 := bv_solver 8) block6 [4; 5; 6].
Proof.
  apply (scan_restarts_after_separator (Z3 := bv_solver 8)
           block6 [1; 2] 7 [4; 5; 6] block6_two_scanned).
  - reflexivity.
  - reflexivity.
  - by vm_compute.
Defined.


Lemma distinct_names_replace_old_witness :
  ∃ s',
    VisitRecordDecl 1 (renamer3 members_xyz) = Returned (true, s') ∧
    record_fields s' !! 1
      = Some (take (length ["field0"; "field1"; "field2"]) ["x"; "y"; "z"]) ∧
    VisitRecordDecl 1 s' = Returned (true, s').
Proof.
  apply (distinct_names_replace_old 1 (renamer3 members_xyz) 7 members_xyz
           ["x"; "y"; "z"] ["field0"; "field1"; "field2"]).
  - by vm_compute.
  - by vm_compute.
  - by vm_compute.
  - by vm_compute.
  - simpl. lia.
  - apply (bool_decide_unpack _). by vm_compute.
Defined.

Lemma second_visit_suffixes_again_witness :
  ∃ s' s'' names names',
    VisitRecordDecl 1 (renamer3 members_xyx) = Returned (true, s') ∧
    VisitRecordDecl 1 s' = Returned (true, s'') ∧
    record_fields s' !! 1 = Some names ∧
    record_fields s'' !! 1 = Some names' ∧
    ∀ i name old_name,
      ["x"; "y"; "x"] !! i = Some name →
      ["field0"; "field1"; "field2"] !! i = Some old_name →
      if decide (name ∈ take i ["x"; "y"; "x"]) then
        names !! i = Some (name +:+ "_" +:+ old_name) ∧
        names' !! i = Some (name +:+ "_" +:+ name +:+ "_" +:+ old_name) ∧
        names' !! i ≠ names !! i
      else
        names !! i = Some name ∧ names' !! i = Some name.
Proof.
  apply (second_visit_suffixes_again 1 (renamer3 members_xyx) 7 members_xyx
           ["x"; "y"; "x"] ["field0"; "field1"; "field2"]).
  - by vm_compute.
  - by vm_compute.
  - by vm_compute.
  - by vm_compute.
  - simpl. lia.
Defined.

Lemma every_element_name_is_used_witness :
  ∃ s' names,
    VisitRecordDecl 1 (renamer3 members_xyx) = Returned (true, s') ∧
    record_fields s' !! 1 = Some names ∧
    "y" ∈ names.
Proof.
  apply (every_element_name_is_used 1 (renamer3 members_xyx) 7 members_xyx
           ["x"; "y"; "x"] ["field0"; "field1"; "field2"] "y").
  - by vm_compute.
  - by vm_compute.
  - by vm_compute.
  - by vm_compute.
  - simpl. lia.
  - apply (bool_decide_unpack _). by vm_compute.
Defined.

Lemma suffixed_name_can_clash_witness :
  ∃ s' names,
    VisitRecordDecl 1 (renamer3 members_clash) = Returned (true, s') ∧
    record_fields s' !! 1 = Some names ∧
    0 ≠ 2 ∧
    names !! 0 = Some ("x" +:+ "_" +:+ "field2") ∧
    names !! 2 = Some ("x" +:+ "_" +:+ "field2") ∧
    ¬ NoDup names.
Proof.
  apply (suffixed_name_can_clash 1 (renamer3 members_clash) 7 members_clash
           ["x_field2"; "x"; "x"] ["field0"; "field1"; "field2"]
           0 2 "x" "field2").
  - by vm_compute.
  - by vm_compute.
  - by vm_compute.
  - by vm_compute.
  - simpl. lia.
  - simpl. lia.
  - by vm_compute.
  - apply (bool_decide_unpack _). by vm_compute.
  - by vm_compute.
  - by vm_compute.
  - apply (bool_decide_unpack _). by vm_compute.
Defined.

Lemma AppendTypeQualList_joins_witness :
  AppendTypeQualList "unsigned " 8 true = "unsigned ".
Proof.
  apply (AppendTypeQualList_joins "unsigned " 8 true). reflexivity.
Defined.

Lemma PrintQualifiers_joins_witness :
  PrintQualifiers qualifiers_cvug "" policy_c true
  = "" +:+ String.concat " " (qualifier_words qualifiers_cvug policy_c)
    +:+ (if true && bool_decide (qualifier_words qualifiers_cvug policy_c ≠ [])
         then " " else "").
Proof.
  apply (PrintQualifiers_joins qualifiers_cvug "" policy_c true).
  reflexivity.
Defined.
